(** * pyxllib.debug.strlib.strfind: occurrence search in a string

    A shallow embedding of [strfind] (src/pyxllib/debug/strlib.py, lines
    24-133) together with the two built-in methods it relies on,
    [str.find] and [str.rfind], and the properties of the search that the
    repository's specification states. *)

From Stdlib Require Import Ascii String ZArith List Bool Lia.
Import ListNotations.
Open Scope Z_scope.

(** ** Strings and integers of the host language *)

(** A Python [str] is an immutable sequence of characters; only equality
    of characters is ever used by the search. *)
Definition str := list ascii.

(** String literals of the examples. *)
Definition py (s : string) : str := list_ascii_of_string s.

(** [len(s)], an unbounded integer. *)
Definition len (s : str) : Z := Z.of_nat (length s).

Fixpoint str_eqb (a b : str) : bool :=
  match a, b with
  | [], [] => true
  | x :: a', y :: b' => Ascii.eqb x y && str_eqb a' b'
  | _, _ => false
  end.

(** [s[i:i+n]] for [0 <= i]. *)
Definition slice (s : str) (i : Z) (n : nat) : str :=
  firstn n (skipn (Z.to_nat i) s).

(** [s[i:i+len(sub)] == sub], the comparison made at each candidate
    position of a scan. *)
Definition match_at (s sub : str) (i : Z) : bool :=
  (0 <=? i) && (i + len sub <=? len s) && str_eqb (slice s i (length sub)) sub.

(** ** [str.find] and [str.rfind]

    Both methods clip their [start] and [end] arguments as a slice does
    (a negative index counts from the end of the string, an index past
    either end is clamped), answer [-1] when the clipped window is
    shorter than the needle, and otherwise scan the candidate positions
    [start .. end - len(sub)], upwards for [find] and downwards for
    [rfind]. *)

Definition adjust_end (e n : Z) : Z :=
  if n <? e then n
  else if e <? 0 then (if e + n <? 0 then 0 else e + n)
  else e.

Definition adjust_start (s n : Z) : Z :=
  if s <? 0 then (if s + n <? 0 then 0 else s + n) else s.

(** Tries [i], [i+1], ... ([k] candidates). *)
Fixpoint scan_up (s sub : str) (i : Z) (k : nat) : Z :=
  match k with
  | O => -1
  | S k' => if match_at s sub i then i else scan_up s sub (i + 1) k'
  end.

(** Tries [i], [i-1], ... ([k] candidates). *)
Fixpoint scan_down (s sub : str) (i : Z) (k : nat) : Z :=
  match k with
  | O => -1
  | S k' => if match_at s sub i then i else scan_down s sub (i - 1) k'
  end.

(** [s.find(sub, start, end)] *)
Definition find3 (s sub : str) (start end_ : Z) : Z :=
  let e := adjust_end end_ (len s) in
  let b := adjust_start start (len s) in
  if e - b <? len sub then -1
  else scan_up s sub b (Z.to_nat (e - b - len sub + 1)).

(** [s.find(sub, start)]: the window runs to the end of the string. *)
Definition find (s sub : str) (start : Z) : Z :=
  find3 s sub start (len s).

(** [s.rfind(sub, start, end)] *)
Definition rfind (s sub : str) (start end_ : Z) : Z :=
  let e := adjust_end end_ (len s) in
  let b := adjust_start start (len s) in
  if e - b <? len sub then -1
  else scan_down s sub (e - len sub) (Z.to_nat (e - b - len sub + 1)).

(** ** Results of calls that may raise

    [None] stands for a raised exception, [Some v] for a normal return. *)

Definition raises {A : Type} : option A := None.

Definition bind {A B : Type} (c : option A) (f : A -> option B) : option B :=
  match c with
  | Some a => f a
  | None => None
  end.

Notation "x <- c ;; k" := (bind c (fun x => k))
  (at level 61, c at next level, right associativity).

(** [min(arr)] and [max(arr)] of a tuple: [ValueError] on the empty tuple. *)
Definition py_min (arr : list Z) : option Z :=
  match arr with
  | [] => raises
  | x :: r => Some (fold_left Z.min r x)
  end.

Definition py_max (arr : list Z) : option Z :=
  match arr with
  | [] => raises
  | x :: r => Some (fold_left Z.max r x)
  end.

(** ** The search *)

(** Lines 72-75. *)
Definition nonnegative_min_value (arr : list Z) : option Z :=
  let arr := filter (fun x => 0 <=? x) arr in
  match arr with
  | [] => Some (-1)
  | _ :: _ => py_min arr
  end.

(** Lines 77-80. *)
Definition nonnegative_max_value (arr : list Z) : option Z :=
  let arr := filter (fun x => 0 <=? x) arr in
  match arr with
  | [] => Some (-1)
  | _ :: _ => py_max arr
  end.

(** The [objstr] argument: a single string, or a list or tuple of
    strings. *)
Inductive needles : Type :=
  | Str (objstr : str)
  | Seq (objstr : list str).

(** Lines 83-86: the default of [start] depends on the direction. *)
Definition default_start (fullstr : str) (start : option Z) (times : Z) : Z :=
  let start :=
    match start with
    | None => if times <? 0 then Some (len fullstr - 1) else None
    | Some _ => start
    end in
  match start with
  | None => 0
  | Some start => start
  end.

(** Lines 96-99: [n] rounds of the forward loop from the cursor [p]; a
    round that finds nothing returns [-1] at once. *)
Fixpoint forward_loop (fullstr objstr : str) (offset : Z) (n : nat) (p : Z) : Z :=
  match n with
  | O => p
  | S n' =>
      let p := find fullstr objstr (p + offset) in
      if p =? -1 then -1 else forward_loop fullstr objstr offset n' p
  end.

(** Lines 104-107. *)
Fixpoint backward_loop (fullstr objstr : str) (offset : Z) (n : nat) (p : Z) : Z :=
  match n with
  | O => p
  | S n' =>
      let p := rfind fullstr objstr 0 (p - offset) in
      if p =? -1 then -1 else backward_loop fullstr objstr offset n' p
  end.

(** [strfind] on a single string: lines 83-87, the branch of lines
    90-107 and the final [return p].  Every step is total, so the call
    returns an integer. *)
Definition strfind_str (fullstr objstr : str) (start : option Z) (times : Z)
    (overlap : bool) : Z :=
  let start := default_start fullstr start times in
  let offset := if overlap then 1 else len objstr in
  if 0 <=? times then
    forward_loop fullstr objstr offset (Z.to_nat (times + 1)) (start - offset)
  else
    backward_loop fullstr objstr offset (Z.to_nat (- times)) (start + offset + 1).

(** Lines 114-121: each round asks every needle for its next match from
    [p + 1] (a recursive call on a string, with [times] left at 0) and
    keeps the smallest. *)
Fixpoint multi_forward_loop (fullstr : str) (objstr : list str) (overlap : bool)
    (n : nat) (p : Z) : option Z :=
  match n with
  | O => Some p
  | S n' =>
      let ls := map (fun x => strfind_str fullstr x (Some (p + 1)) 0 overlap) objstr in
      p <- nonnegative_min_value ls ;;
      if p =? -1 then Some (-1)
      else multi_forward_loop fullstr objstr overlap n' p
  end.

(** Lines 126-131. *)
Fixpoint multi_backward_loop (fullstr : str) (objstr : list str) (overlap : bool)
    (n : nat) (p : Z) : option Z :=
  match n with
  | O => Some p
  | S n' =>
      let ls := map (fun x => strfind_str fullstr x (Some (p - 1)) (-1) overlap) objstr in
      p <- nonnegative_max_value ls ;;
      if p =? -1 then Some (-1)
      else multi_backward_loop fullstr objstr overlap n' p
  end.

(** [strfind(fullstr, objstr, start=start, times=times, overlap=overlap)],
    lines 24-133. *)
Definition strfind (fullstr : str) (objstr : needles) (start : option Z)
    (times : Z) (overlap : bool) : option Z :=
  match objstr with
  | Str objstr => Some (strfind_str fullstr objstr start times overlap)
  | Seq objstr =>
      let start := default_start fullstr start times in
      if 0 <=? times then
        multi_forward_loop fullstr objstr overlap (Z.to_nat (times + 1)) (start - 1)
      else
        multi_backward_loop fullstr objstr overlap (Z.to_nat (- times)) (start + 1)
  end.

(** ** Occurrences, as the specification speaks of them *)

(** The needle [sub] occurs in [s] at position [i]. *)
Definition occurs_at (s sub : str) (i : Z) : Prop :=
  0 <= i /\ i + len sub <= len s /\ slice s i (length sub) = sub.

(** [p] is the first occurrence of [sub] at or after the cursor [c]. *)
Definition first_from (s sub : str) (c p : Z) : Prop :=
  c <= p /\ occurs_at s sub p /\ forall q, c <= q < p -> ~ occurs_at s sub q.

(** [p] is the last occurrence of [sub] that lies wholly within
    [s[0:e]]. *)
Definition last_within (s sub : str) (e p : Z) : Prop :=
  occurs_at s sub p /\ p + len sub <= e /\
  forall q, occurs_at s sub q -> q + len sub <= e -> q <= p.

(** [nth_match s sub adv c k p]: counting from the cursor [c] and moving
    the cursor [adv] characters past the start of every counted
    occurrence, [p] is occurrence number [k] (from 0).  With
    [adv = len sub] the counted occurrences do not overlap. *)
Inductive nth_match (s sub : str) (adv : Z) : Z -> nat -> Z -> Prop :=
  | nth_match_first c p :
      first_from s sub c p -> nth_match s sub adv c O p
  | nth_match_next c q k p :
      first_from s sub c q ->
      nth_match s sub adv (q + adv) k p ->
      nth_match s sub adv c (S k) p.

(** Counting backward: the first counted occurrence is the last one that
    ends at or before index [c] (inclusive), every further one the last
    that ends before the start of the one counted before it. *)
Inductive nth_match_back (s sub : str) : Z -> nat -> Z -> Prop :=
  | nth_match_back_first c p :
      last_within s sub (c + 1) p -> nth_match_back s sub c O p
  | nth_match_back_next c q k p :
      last_within s sub (c + 1) q ->
      nth_match_back s sub (q - 1) k p ->
      nth_match_back s sub c (S k) p.

(** The strings a needle argument offers. *)
Definition needle_of (objstr : needles) (x : str) : Prop :=
  match objstr with
  | Str s => x = s
  | Seq l => In x l
  end.

(** The nearest of the per-needle answers [ls] of one round: the least
    non-negative one going forward, the greatest going backward, and
    [-1] when none is non-negative. *)
Definition nearest_forward (ls : list Z) (r : Z) : Prop :=
  (r = -1 /\ forall x, In x ls -> x < 0) \/
  (0 <= r /\ In r ls /\ forall x, In x ls -> 0 <= x -> r <= x).

Definition nearest_backward (ls : list Z) (r : Z) : Prop :=
  (r = -1 /\ forall x, In x ls -> x < 0) \/
  (0 <= r /\ In r ls /\ forall x, In x ls -> x <= r).

(** [rounds step next n c r]: [n] pick-then-advance rounds from the
    cursor [c] end with [r]; a round that picks [-1] ends the search
    with [-1] whatever the number of rounds left. *)
Inductive rounds (step : Z -> Z -> Prop) (next : Z -> Z) : nat -> Z -> Z -> Prop :=
  | rounds_fail n c :
      step c (-1) -> rounds step next (S n) c (-1)
  | rounds_last c r :
      step c r -> r <> -1 -> rounds step next 1 c r
  | rounds_more n c q r :
      step c q -> q <> -1 ->
      rounds step next (S n) (next q) r ->
      rounds step next (S (S n)) c r.

(** One round of the search over a collection, as the specification
    words it: every needle is searched alone from the cursor, and the
    nearest answer is kept. *)
Definition forward_round (fullstr : str) (objstr : list str) (overlap : bool)
    (c r : Z) : Prop :=
  nearest_forward
    (map (fun x => strfind_str fullstr x (Some c) 0 overlap) objstr) r.

Definition backward_round (fullstr : str) (objstr : list str) (overlap : bool)
    (c r : Z) : Prop :=
  nearest_backward
    (map (fun x => strfind_str fullstr x (Some c) (-1) overlap) objstr) r.


(** ** Excel column names (lines 615-683) *)

(** [ord(ch)] and [chr(i)] on the characters of [str]; [chr] is only
    applied to the codes 65..90 below. *)
Definition ord (ch : ascii) : Z := Z.of_N (N_of_ascii ch).
Definition chr (i : Z) : ascii := ascii_of_N (Z.to_N i).

(** Lines 625-628: the rounds of [while d:].  [s] is the list of
    one-character strings built so far; [fuel] bounds the number of
    rounds, and [None] means that they ran out with the loop still
    going. *)
Fixpoint int2excel_loop (fuel : nat) (d : Z) (s : list str) : option (list str) :=
  match fuel with
  | O => None
  | S fuel' =>
      if d =? 0 then Some s
      else
        let t := (d - 1) mod 26 in
        int2excel_loop fuel' ((d - 1) / 26) (s ++ [[chr (65 + t)]])
  end.

(** Lines 615-629: [''.join(reversed(s))] after the loop. *)
Definition int2excel_col_name (fuel : nat) (d : Z) : option str :=
  match int2excel_loop fuel d [] with
  | Some s => Some (concat (rev s))
  | None => None
  end.

(** Lines 632-644. *)
Definition excel_col_name2int (s : str) : Z :=
  fold_left (fun d ch => d * 26 + (ord ch - 64)) s 0.

(** A capital letter ['A'..'Z']. *)
Definition is_capital (ch : ascii) : Prop := 65 <= ord ch <= 90.

(** Values that [gentuple] handles: integers and strings. *)
Inductive value : Type :=
  | VInt (i : Z)
  | VStr (s : str).

(** The [tag] argument of [gentuple], by the tests the code makes on
    it: an [int], a [str], a list or tuple, anything else. *)
Inductive tag_arg : Type :=
  | TagInt (t : Z)
  | TagStr (s : str)
  | TagSeq (l : list value)
  | TagOther.

(** How a call ends. *)
Inductive outcome (A : Type) : Type :=
  | Returns (a : A)
  | Raises
  | OutOfFuel.
Arguments Returns {A} a.
Arguments Raises {A}.
Arguments OutOfFuel {A}.

(** [range(n)] *)
Definition py_range (n : Z) : list Z := map Z.of_nat (seq 0 (Z.to_nat n)).

(** [tuple(map(f, xs))] for an [f] that may stop the call. *)
Fixpoint map_outcome {A B : Type} (f : A -> outcome B) (xs : list A) : outcome (list B) :=
  match xs with
  | [] => Returns []
  | x :: xs' =>
      match f x with
      | Returns y =>
          match map_outcome f xs' with
          | Returns ys => Returns (y :: ys)
          | Raises => Raises
          | OutOfFuel => OutOfFuel
          end
      | Raises => Raises
      | OutOfFuel => OutOfFuel
      end
  end.

(** [tag[i]] for [0 <= i], [IndexError] past the end. *)
Definition tag_item (l : list value) (i : Z) : outcome value :=
  match nth_error l (Z.to_nat i) with
  | Some v => Returns v
  | None => Raises
  end.

(** [a[i] = v] for [0 <= i], [IndexError] past the end. *)
Fixpoint set_item {A : Type} (a : list A) (i : nat) (v : A) : outcome (list A) :=
  match a, i with
  | [], _ => Raises
  | _ :: a', O => Returns (v :: a')
  | x :: a', S i' =>
      match set_item a' i' v with
      | Returns r => Returns (x :: r)
      | Raises => Raises
      | OutOfFuel => OutOfFuel
      end
  end.

(** Lines 676-677: [for i in range(n): a[i] = i + tag]. *)
Fixpoint number_loop (t : Z) (r : list Z) (a : list value) : outcome (list value) :=
  match r with
  | [] => Returns a
  | i :: r' =>
      match set_item a (Z.to_nat i) (VInt (i + t)) with
      | Returns a' => number_loop t r' a'
      | Raises => Raises
      | OutOfFuel => OutOfFuel
      end
  end.

(** Lines 658-683.  An [int] tag numbers from the tag, ['A'] gives the
    Excel names of 1..n, a list or tuple is cycled through ([x % k]
    raises [ZeroDivisionError] when it is empty), and any other tag
    leaves the [n] empty strings the list was created with. *)
Definition gentuple (fuel : nat) (n : Z) (tag : tag_arg) : outcome (list value) :=
  let a := repeat (VStr []) (Z.to_nat n) in
  match tag with
  | TagInt t => number_loop t (py_range n) a
  | TagStr s =>
      if str_eqb s (py "A") then
        map_outcome
          (fun x => match int2excel_col_name fuel (x + 1) with
                    | Some name => Returns (VStr name)
                    | None => OutOfFuel
                    end)
          (py_range n)
      else Returns a
  | TagSeq l =>
      let k := Z.of_nat (length l) in
      map_outcome
        (fun x => if k =? 0 then Raises else tag_item l (x mod k))
        (py_range n)
  | TagOther => Returns a
  end.

(** ** Two-dimensional arrays (lines 558-612, 727-761) *)

(** An element of the outer list, by the test
    [isinstance(item, (list, tuple))]: a row, or a single element (a
    number, a string, ...). *)
Inductive item (V : Type) : Type :=
  | Row (l : list V)
  | Cell (v : V).
Arguments Row {V} l.
Arguments Cell {V} v.

(** The number of columns one element counts for. *)
Definition item_width {V : Type} (it : item V) : Z :=
  match it with
  | Row l => Z.of_nat (length l)
  | Cell _ => 1
  end.

(** The cells of an element as [ensure_array] takes them: the row
    itself, or the single element as a row of one. *)
Definition item_cells {V : Type} (it : item V) : list V :=
  match it with
  | Row l => l
  | Cell v => [v]
  end.

(** Lines 558-578, for an [arr] that is a list or tuple. *)
Definition len_in_dim2 {V : Type} (arr : list (item V)) : Z :=
  fold_left (fun column_num it => Z.max column_num (item_width it)) arr 0.

(** Lines 581-598; [dv] is [str(default_value)]. *)
Definition ensure_array {V : Type} (dv : V) (arr : list (item V)) : list (item V) :=
  let max_cols := len_in_dim2 arr in
  if max_cols =? 1 then arr
  else
    map (fun ls =>
           let t := item_cells ls in
           Row (t ++ repeat dv (Z.to_nat (max_cols - Z.of_nat (length t)))))
        arr.

(** One round of [zip]: the next element of every row in turn, [None]
    as soon as a row is used up. *)
Fixpoint heads {V : Type} (a : list (list V)) : option (list V) :=
  match a with
  | [] => Some []
  | [] :: _ => None
  | (x :: _) :: a' =>
      match heads a' with
      | Some h => Some (x :: h)
      | None => None
      end
  end.

Fixpoint zip_loop {V : Type} (n : nat) (a : list (list V)) : list (list V) :=
  match n with
  | O => []
  | S n' =>
      match heads a with
      | Some h => h :: zip_loop n' (map (@tl V) a)
      | None => []
      end
  end.

(** Line 612, [zip] over the rows of [a], each tuple made a list: no
    round without rows, and never more rounds than the first row has
    elements. *)
Definition zip_star {V : Type} (a : list (list V)) : list (list V) :=
  match a with
  | [] => []
  | r :: _ => zip_loop (length r) a
  end.

(** What [zip] iterates for each element of [a].  A row yields its
    cells.  A single element is iterated as the language iterates it:
    [iter v] is [Some] of what iterating [v] yields (the characters of a
    string, say) and [None] when [v] cannot be iterated (a number), in
    which case [zip] raises [TypeError], whatever the other elements
    are. *)
Fixpoint rows_of {V : Type} (iter : V -> option (list V)) (a : list (item V))
    : option (list (list V)) :=
  match a with
  | [] => Some []
  | it :: a' =>
      match (match it with
             | Row l => Some l
             | Cell v => iter v
             end), rows_of iter a' with
      | Some l, Some rs => Some (l :: rs)
      | _, _ => None
      end
  end.

(** Lines 601-612; [iter] tells how single elements are iterated. *)
Definition swap_rowcol {V : Type} (iter : V -> option (list V))
    (a : list (item V)) (ensure_arr : bool) (dv : V)
    : option (list (list V)) :=
  let a := if ensure_arr then ensure_array dv a else a in
  match rows_of iter a with
  | Some rows => Some (zip_star rows)
  | None => None
  end.

(** [l[i] = v] for an index within the list. *)
Fixpoint update {A : Type} (l : list A) (i : nat) (v : A) : list A :=
  match l, i with
  | [], _ => []
  | _ :: l', O => v :: l'
  | x :: l', S i' => x :: update l' i' v
  end.

(** A table of list rows as the interpreter holds it: [t_rows] gives,
    for each row of the outer list in order, the address of the list
    object that is the row, and [t_store] the content of the list
    objects by address.  Two entries of [t_rows] with one address are
    one and the same row (as in [[row] * 3]). *)
Record table (V : Type) : Type := mkTable {
  t_rows : list nat;
  t_store : list (list V)
}.
Arguments mkTable {V} t_rows t_store.
Arguments t_rows {V} t.
Arguments t_store {V} t.

(** The rows of a table as values, in order. *)
Definition table_value {V : Type} (t : table V) : list (list V) :=
  map (fun ad => nth ad (t_store t) []) (t_rows t).

(** Every row address is that of an object of the store. *)
Definition table_ok {V : Type} (t : table V) : Prop :=
  forall ad, In ad (t_rows t) -> (ad < length (t_store t))%nat.

(** A table whose rows are all different objects. *)
Definition table_of_rows {V : Type} (arr : list (list V)) : table V :=
  mkTable (seq 0 (length arr)) arr.

(** [a[i][j]] for the row at address [ad]; [None] is an [IndexError]. *)
Definition cell {V : Type} (store : list (list V)) (ad j : nat) : option V :=
  match nth_error store ad with
  | Some row => nth_error row j
  | None => None
  end.

(** [a[i][j] = v] for the row at address [ad]: the list object itself
    is changed, for every row of the table that it is. *)
Definition set_cell {V : Type} (store : list (list V)) (ad j : nat) (v : V)
    : list (list V) :=
  match nth_error store ad with
  | Some row => update store ad (update row j v)
  | None => store
  end.

(** Lines 756-760: the columns [js] of the row at address [cur] against
    the row at address [prev] above it, both read in the table being
    rewritten; [None] is an [IndexError]. *)
Fixpoint clear_row {V : Type} (eqb : V -> V -> bool) (blank : V) (js : list nat)
    (prev cur : nat) (store : list (list V)) : option (list (list V)) :=
  match js with
  | [] => Some store
  | j :: js' =>
      match cell store cur j, cell store prev j with
      | Some x, Some y =>
          if eqb x y then clear_row eqb blank js' prev cur (set_cell store cur j blank)
          else Some store
      | _, _ => None
      end
  end.

(** Lines 755-760: the rows of index [idx], from the bottom up. *)
Fixpoint hang_loop {V : Type} (eqb : V -> V -> bool) (blank : V) (m : Z)
    (idx : list nat) (rows : list nat) (store : list (list V))
    : option (list (list V)) :=
  match idx with
  | [] => Some store
  | i :: idx' =>
      match nth_error rows i, nth_error rows (i - 1) with
      | Some cur, Some prev =>
          match clear_row eqb blank (seq 0 (Z.to_nat m)) prev cur store with
          | Some store' => hang_loop eqb blank m idx' rows store'
          | None => None
          end
      | _, _ => None
      end
  end.

(** Line 751: [depth if depth else len_in_dim2(arr) - 1]. *)
Definition hang_depth {V : Type} (arr : list (list V)) (depth : option Z) : Z :=
  match depth with
  | Some d => if d =? 0 then len_in_dim2 (map Row arr) - 1 else d
  | None => len_in_dim2 (map Row arr) - 1
  end.

(** Lines 727-761, on a table of list rows; [eqb] is [==] on the
    elements and [blank] the empty string.  [copy.deepcopy] gives a
    table with rows shared exactly as in [arr]; the loops rewrite that
    copy, which is returned, and [arr] itself is left alone. *)
Definition arr_hangclear {V : Type} (eqb : V -> V -> bool) (blank : V)
    (arr : table V) (depth : option Z) : option (table V) :=
  let m := hang_depth (table_value arr) depth in
  match hang_loop eqb blank m (rev (seq 1 (length (t_rows arr) - 1)))
          (t_rows arr) (t_store arr) with
  | Some store => Some (mkTable (t_rows arr) store)
  | None => None
  end.

(** What the two loops come to on the rows as values when no two rows
    are one object: a row is rewritten from its own cells and those of
    the row above, which is still as given. *)
Fixpoint clear_row_values {V : Type} (eqb : V -> V -> bool) (blank : V)
    (js : list nat) (prev cur : list V) : option (list V) :=
  match js with
  | [] => Some cur
  | j :: js' =>
      match nth_error cur j, nth_error prev j with
      | Some x, Some y =>
          if eqb x y then clear_row_values eqb blank js' prev (update cur j blank)
          else Some cur
      | _, _ => None
      end
  end.

Fixpoint hang_loop_values {V : Type} (eqb : V -> V -> bool) (blank : V) (m : Z)
    (idx : list nat) (a : list (list V)) : option (list (list V)) :=
  match idx with
  | [] => Some a
  | i :: idx' =>
      match nth_error a i, nth_error a (i - 1) with
      | Some cur, Some prev =>
          match clear_row_values eqb blank (seq 0 (Z.to_nat m)) prev cur with
          | Some cur' => hang_loop_values eqb blank m idx' (update a i cur')
          | None => None
          end
      | _, _ => None
      end
  end.

(** [w] is the greatest number of cells of a row of the table, 0 for no
    row at all. *)
Definition widest {V : Type} (rows : list (list V)) (w : Z) : Prop :=
  (forall r, In r rows -> Z.of_nat (length r) <= w) /\
  (rows <> [] -> exists r, In r rows /\ Z.of_nat (length r) = w) /\
  (rows = [] -> w = 0).

(** [==] on integers and strings. *)
Definition value_eqb (a b : value) : bool :=
  match a, b with
  | VInt i, VInt j => i =? j
  | VStr s, VStr t => str_eqb s t
  | _, _ => false
  end.

(** What the table should look like afterwards: in a row, the leading
    cells (at most [m]) that repeat the row above are blanked, up to the
    first cell that differs. *)
Fixpoint blank_repeats {V : Type} (eqb : V -> V -> bool) (blank : V) (m : nat)
    (prev cur : list V) : list V :=
  match m, prev, cur with
  | S m', y :: prev', x :: cur' =>
      if eqb x y then blank :: blank_repeats eqb blank m' prev' cur' else cur
  | _, _, _ => cur
  end.

Fixpoint blank_below {V : Type} (eqb : V -> V -> bool) (blank : V) (m : nat)
    (prev : list V) (rows : list (list V)) : list (list V) :=
  match rows with
  | [] => []
  | r :: rows' => blank_repeats eqb blank m prev r :: blank_below eqb blank m r rows'
  end.

(** ** [GrowingList] (lines 709-724) *)

(** The object: the list it is, and the default it was created with. *)
Record growing_list (V : Type) : Type := mkGrowingList {
  gl_items : list V;
  gl_default : V
}.
Arguments mkGrowingList {V} gl_items gl_default.
Arguments gl_items {V} g.
Arguments gl_default {V} g.

(** Lines 712-714: an empty list. *)
Definition gl_init {V : Type} (default_value : V) : growing_list V :=
  mkGrowingList [] default_value.

(** The position that [list.__getitem__] and [list.__setitem__] use for
    an integer index: a negative index counts from the end, and an
    index outside the list is an [IndexError] ([None]). *)
Definition list_index (n : nat) (index : Z) : option nat :=
  let i := if index <? 0 then index + Z.of_nat n else index in
  if (0 <=? i) && (i <? Z.of_nat n) then Some (Z.to_nat i) else None.

(** Lines 717-718 and 722-723: the list is extended with defaults up to
    the index. *)
Definition gl_extend {V : Type} (g : growing_list V) (index : Z) : growing_list V :=
  if Z.of_nat (length (gl_items g)) <=? index then
    mkGrowingList
      (gl_items g ++
       repeat (gl_default g) (Z.to_nat (index + 1 - Z.of_nat (length (gl_items g)))))
      (gl_default g)
  else g.

(** Lines 716-719: the value read ([None]: [IndexError]) and the object
    afterwards. *)
Definition gl_getitem {V : Type} (g : growing_list V) (index : Z)
    : option V * growing_list V :=
  let g := gl_extend g index in
  match list_index (length (gl_items g)) index with
  | Some i => (nth_error (gl_items g) i, g)
  | None => (None, g)
  end.

(** Lines 721-724: whether the assignment went through ([None]:
    [IndexError]) and the object afterwards. *)
Definition gl_setitem {V : Type} (g : growing_list V) (index : Z) (value : V)
    : option unit * growing_list V :=
  let g := gl_extend g index in
  match list_index (length (gl_items g)) index with
  | Some i => (Some tt, mkGrowingList (update (gl_items g) i value) (gl_default g))
  | None => (None, g)
  end.

(** ** [shorten] (lines 403-426) *)

(** The characters that [\s] matches in a [str] pattern, among the code
    points below 256: tab to carriage return, the separators 28-31, the
    space, NEL and the no-break space. *)
Definition isspace (ch : ascii) : bool :=
  let c := ord ch in
  ((9 <=? c) && (c <=? 13)) || ((28 <=? c) && (c <=? 32)) || (c =? 133) || (c =? 160).

(** [re.sub(r'\s+', ' ', s)]: every maximal run of whitespace becomes
    one space.  [in_run] tells that the character before belonged to a
    run already replaced. *)
Fixpoint collapse_spaces (in_run : bool) (s : str) : str :=
  match s with
  | [] => []
  | ch :: s' =>
      if isspace ch then
        if in_run then collapse_spaces true s'
        else " "%char :: collapse_spaces true s'
      else ch :: collapse_spaces false s'
  end.

(** [s[:width]]: a negative [width] counts from the end. *)
Definition py_prefix (s : str) (width : Z) : str :=
  if width <? 0 then firstn (Z.to_nat (len s + width)) s
  else firstn (Z.to_nat width) s.

(** Lines 422-426 ([placeholder] is not used by the code). *)
Definition shorten (s : str) (width : Z) : str :=
  let s := collapse_spaces false s in
  let n := len s in
  if width <? n then py_prefix s width else s.

(** A string as [shorten] leaves it: no whitespace but the space, and
    no two spaces in a row. *)
Fixpoint single_spaced (after_space : bool) (s : str) : Prop :=
  match s with
  | [] => True
  | ch :: s' =>
      if isspace ch then
        ch = " "%char /\ after_space = false /\ single_spaced true s'
      else single_spaced false s'
  end.

(** ** Occurrences of any needle of a collection *)

Definition any_occurs_at (s : str) (l : list str) (p : Z) : Prop :=
  exists x, In x l /\ occurs_at s x p.

(** [p] is the first position at or after the cursor [c] at which a
    needle of [l] occurs. *)
Definition first_any_from (s : str) (l : list str) (c p : Z) : Prop :=
  c <= p /\ any_occurs_at s l p /\ forall q, c <= q < p -> ~ any_occurs_at s l q.

(** [p] is position number [k] (from 0), in increasing order, among the
    positions at or after [c] at which a needle of [l] occurs. *)
Inductive nth_any (s : str) (l : list str) : Z -> nat -> Z -> Prop :=
  | nth_any_first c p :
      first_any_from s l c p -> nth_any s l c O p
  | nth_any_next c q k p :
      first_any_from s l c q ->
      nth_any s l (q + 1) k p ->
      nth_any s l c (S k) p.

(** ** The examples of the docstring *)

Example doc_basic : strfind (py "aabbaabb") (Str (py "bb")) None 0 false = Some 2.
Proof. reflexivity. Qed.
Example doc_first : strfind (py "bbaaaabb") (Str (py "bb")) None 0 false = Some 0.
Proof. reflexivity. Qed.
Example doc_absent : strfind (py "aabbaabb") (Str (py "cc")) None 0 false = Some (-1).
Proof. reflexivity. Qed.
Example doc_start2 : strfind (py "aabbaabb") (Str (py "bb")) (Some 2) 0 false = Some 2.
Proof. reflexivity. Qed.
Example doc_start3 : strfind (py "aabbaabb") (Str (py "bb")) (Some 3) 0 false = Some 6.
Proof. reflexivity. Qed.
Example doc_multi_start5 :
  strfind (py "aabbaabb") (Seq [py "aa"; py "bb"]) (Some 5) 0 false = Some 6.
Proof. reflexivity. Qed.
Example doc_back_start5 : strfind (py "aabbaabb") (Str (py "aa")) (Some 5) (-1) false = Some 4.
Proof. reflexivity. Qed.
Example doc_back_start3 : strfind (py "aabbaabb") (Str (py "aa")) (Some 3) (-1) false = Some 0.
Proof. reflexivity. Qed.
Example doc_back_start7 : strfind (py "aabbaabb") (Str (py "bb")) (Some 7) (-1) false = Some 6.
Proof. reflexivity. Qed.
Example doc_item :
  strfind (py "\item=\item+") (Seq [py "\item"; py "\test"]) (Some 1) 0 false = Some 6.
Proof. reflexivity. Qed.

(** ** The scans find what they should *)

Lemma str_eqb_eq (a b : str) : str_eqb a b = true <-> a = b.
Proof.
  revert b; induction a as [|x a IH]; intros [|y b]; simpl;
    try (split; [discriminate | congruence]); try tauto.
  rewrite andb_true_iff, Ascii.eqb_eq, IH.
  split; [intros [-> ->]; reflexivity | intros E; injection E; auto].
Qed.

Lemma match_at_occurs (s sub : str) (i : Z) :
  match_at s sub i = true <-> occurs_at s sub i.
Proof.
  unfold match_at, occurs_at.
  rewrite !andb_true_iff, !Z.leb_le, str_eqb_eq. tauto.
Qed.

Lemma match_at_false (s sub : str) (i : Z) :
  match_at s sub i = false <-> ~ occurs_at s sub i.
Proof.
  rewrite <- match_at_occurs. destruct (match_at s sub i); split; congruence.
Qed.

Lemma len_nonneg (s : str) : 0 <= len s.
Proof. unfold len; lia. Qed.

Lemma scan_up_spec (s sub : str) (k : nat) : forall i,
  (scan_up s sub i k = -1 /\
   forall j, i <= j < i + Z.of_nat k -> ~ occurs_at s sub j) \/
  (i <= scan_up s sub i k < i + Z.of_nat k /\
   occurs_at s sub (scan_up s sub i k) /\
   forall j, i <= j < scan_up s sub i k -> ~ occurs_at s sub j).
Proof.
  induction k as [|k IH]; intros i; cbn [scan_up].
  - left; split; [reflexivity | intros j Hj; lia].
  - destruct (match_at s sub i) eqn:E.
    + right. apply match_at_occurs in E.
      split; [lia | split; [exact E | intros j Hj; lia]].
    + apply match_at_false in E.
      destruct (IH (i + 1)) as [[Hr Hno] | (Hr & Ho & Hno)].
      * left; split; [exact Hr|]. intros j Hj.
        destruct (Z.eq_dec j i) as [-> | Hne]; [exact E | apply Hno; lia].
      * right. split; [lia | split; [exact Ho|]]. intros j Hj.
        destruct (Z.eq_dec j i) as [-> | Hne]; [exact E | apply Hno; lia].
Qed.

Lemma scan_down_spec (s sub : str) (k : nat) : forall i,
  (scan_down s sub i k = -1 /\
   forall j, i - Z.of_nat k < j <= i -> ~ occurs_at s sub j) \/
  (i - Z.of_nat k < scan_down s sub i k <= i /\
   occurs_at s sub (scan_down s sub i k) /\
   forall j, scan_down s sub i k < j <= i -> ~ occurs_at s sub j).
Proof.
  induction k as [|k IH]; intros i; cbn [scan_down].
  - left; split; [reflexivity | intros j Hj; lia].
  - destruct (match_at s sub i) eqn:E.
    + right. apply match_at_occurs in E.
      split; [lia | split; [exact E | intros j Hj; lia]].
    + apply match_at_false in E.
      destruct (IH (i - 1)) as [[Hr Hno] | (Hr & Ho & Hno)].
      * left; split; [exact Hr|]. intros j Hj.
        destruct (Z.eq_dec j i) as [-> | Hne]; [exact E | apply Hno; lia].
      * right. split; [lia | split; [exact Ho|]]. intros j Hj.
        destruct (Z.eq_dec j i) as [-> | Hne]; [exact E | apply Hno; lia].
Qed.

(** [find] and [rfind] answer [-1] or a position where the needle
    occurs, whatever the indices they are given. *)
Lemma find_range (s sub : str) (c : Z) :
  find s sub c = -1 \/ occurs_at s sub (find s sub c).
Proof.
  unfold find, find3.
  destruct (_ <? len sub); [left; reflexivity|].
  match goal with |- context [scan_up s sub ?i ?k] =>
    destruct (scan_up_spec s sub k i) as [[H _] | (_ & H & _)] end; auto.
Qed.

Lemma rfind_range (s sub : str) (b e : Z) :
  rfind s sub b e = -1 \/ occurs_at s sub (rfind s sub b e).
Proof.
  unfold rfind.
  destruct (_ <? len sub); [left; reflexivity|].
  match goal with |- context [scan_down s sub ?i ?k] =>
    destruct (scan_down_spec s sub k i) as [[H _] | (_ & H & _)] end; auto.
Qed.

(** From a cursor that is not negative, [find] gives the first
    occurrence at or after the cursor, and [-1] only when there is
    none. *)
Lemma find_first (s sub : str) (c : Z) :
  0 <= c ->
  (find s sub c = -1 /\ forall q, c <= q -> ~ occurs_at s sub q) \/
  first_from s sub c (find s sub c).
Proof.
  intros Hc. unfold find, find3, adjust_end, adjust_start.
  pose proof (len_nonneg s) as Hs. pose proof (len_nonneg sub) as Hsub.
  rewrite Z.ltb_irrefl.
  destruct (len s <? 0) eqn:E0; [apply Z.ltb_lt in E0; lia|].
  destruct (c <? 0) eqn:E1; [apply Z.ltb_lt in E1; lia|].
  destruct (len s - c <? len sub) eqn:E2.
  - apply Z.ltb_lt in E2. left; split; [reflexivity|].
    intros q Hq (_ & Hle & _). lia.
  - apply Z.ltb_ge in E2.
    match goal with |- context [scan_up s sub ?i ?k] =>
      destruct (scan_up_spec s sub k i) as [[H Hno] | (Hr & Ho & Hno)] end.
    + left; split; [exact H|]. intros q Hq Hocc.
      apply (Hno q); [|exact Hocc]. destruct Hocc as (_ & Hle & _). lia.
    + right. split; [lia | split; [exact Ho | exact Hno]].
Qed.

(** With a window [s[0:e]] whose end is not negative, [rfind] gives the
    last occurrence lying within the window, and [-1] only when there
    is none. *)
Lemma rfind_last (s sub : str) (e : Z) :
  0 <= e ->
  (rfind s sub 0 e = -1 /\
   forall q, occurs_at s sub q -> ~ q + len sub <= e) \/
  last_within s sub e (rfind s sub 0 e).
Proof.
  intros He. unfold rfind, adjust_end, adjust_start.
  pose proof (len_nonneg s) as Hs. pose proof (len_nonneg sub) as Hsub.
  change (0 <? 0) with false. cbv iota.
  destruct (e <? 0) eqn:E1; [apply Z.ltb_lt in E1; lia|].
  set (e' := if len s <? e then len s else e).
  assert (He' : e' = Z.min (len s) e).
  { unfold e'. destruct (len s <? e) eqn:E; [apply Z.ltb_lt in E | apply Z.ltb_ge in E]; lia. }
  destruct (e' - 0 <? len sub) eqn:E2.
  - apply Z.ltb_lt in E2. left; split; [reflexivity|].
    intros q (Hq & Hle & _) Hqe. lia.
  - apply Z.ltb_ge in E2.
    match goal with |- context [scan_down s sub ?i ?k] =>
      destruct (scan_down_spec s sub k i) as [[H Hno] | (Hr & Ho & Hno)] end.
    + left; split; [exact H|]. intros q Hocc Hqe.
      apply (Hno q); [|exact Hocc]. destruct Hocc as (Hq & Hle & _). lia.
    + right. split; [exact Ho|]. split; [lia|].
      intros q Hocc Hqe.
      destruct (Z_le_gt_dec q (scan_down s sub (e' - len sub) (Z.to_nat (e' - 0 - len sub + 1))))
        as [Hle | Hgt]; [exact Hle|].
      exfalso. apply (Hno q); [|exact Hocc].
      destruct Hocc as (Hq & Hle & _). lia.
Qed.

(** ** The loops over a single needle *)

Lemma forward_loop_S (h sub : str) (adv : Z) (n : nat) (p : Z) :
  forward_loop h sub adv (S n) p =
  if find h sub (p + adv) =? -1 then -1
  else forward_loop h sub adv n (find h sub (p + adv)).
Proof. reflexivity. Qed.

Lemma backward_loop_S (h sub : str) (adv : Z) (n : nat) (p : Z) :
  backward_loop h sub adv (S n) p =
  if rfind h sub 0 (p - adv) =? -1 then -1
  else backward_loop h sub adv n (rfind h sub 0 (p - adv)).
Proof. reflexivity. Qed.

Lemma first_from_unique (h sub : str) (c p q : Z) :
  first_from h sub c p -> first_from h sub c q -> p = q.
Proof.
  intros (Hp & Hop & Hnp) (Hq & Hoq & Hnq).
  destruct (Z.lt_trichotomy p q) as [Hlt | [Heq | Hgt]]; [|exact Heq|].
  - exfalso. apply (Hnq p); [lia | exact Hop].
  - exfalso. apply (Hnp q); [lia | exact Hoq].
Qed.

Lemma nth_match_lower (h sub : str) (adv : Z) (c : Z) (k : nat) (p : Z) :
  0 <= adv -> nth_match h sub adv c k p -> c <= p /\ occurs_at h sub p.
Proof.
  intros Hadv H. induction H as [c p (Hcp & Ho & _) | c q k p (Hcq & _) _ IH].
  - split; assumption.
  - split; [lia | apply IH].
Qed.

(** [S n] rounds of the forward loop started so that the first scan
    begins at [c] end on occurrence number [n] counted from [c], or on
    [-1] exactly when there is no such occurrence. *)
Lemma forward_loop_nth (h sub : str) (adv : Z) (n : nat) : forall c,
  0 <= c -> 0 <= adv ->
  (forward_loop h sub adv (S n) (c - adv) = -1 /\
   forall p, ~ nth_match h sub adv c n p) \/
  nth_match h sub adv c n (forward_loop h sub adv (S n) (c - adv)).
Proof.
  induction n as [|n IH]; intros c Hc Hadv; rewrite forward_loop_S;
    replace (c - adv + adv) with c by lia;
    destruct (find_first h sub c Hc) as [[E Hno] | Hf].
  - rewrite E. left. split; [reflexivity|].
    intros p H. inversion H as [c' p' (Hcp & Ho & _)|]; subst.
    exact (Hno p Hcp Ho).
  - assert (Hne : (find h sub c =? -1) = false)
      by (apply Z.eqb_neq; destruct Hf as (? & _); lia).
    rewrite Hne. right. constructor. exact Hf.
  - rewrite E. left. split; [reflexivity|].
    intros p H. inversion H as [|c' q k p' (Hcq & Ho & _)]; subst.
    exact (Hno q Hcq Ho).
  - assert (Hq : c <= find h sub c) by (destruct Hf as (? & _); lia).
    assert (Hne : (find h sub c =? -1) = false) by (apply Z.eqb_neq; lia).
    rewrite Hne.
    specialize (IH (find h sub c + adv) ltac:(lia) Hadv).
    replace (find h sub c + adv - adv) with (find h sub c) in IH by lia.
    destruct IH as [[E Hno] | Hn].
    + left. split; [exact E|].
      intros p H. inversion H as [|c' q k p' Hf' Hrest]; subst.
      rewrite (first_from_unique _ _ _ _ _ Hf' Hf) in Hrest.
      exact (Hno p Hrest).
    + right. econstructor; [exact Hf | exact Hn].
Qed.

Lemma to_nat_succ (z : Z) : 0 <= z -> Z.to_nat (z + 1) = S (Z.to_nat z).
Proof. intros H. rewrite Z2Nat.inj_add by lia. simpl. lia. Qed.

(** The start that a forward search uses. *)
Lemma default_start_forward (h : str) (start : option Z) (times : Z) :
  0 <= times ->
  default_start h start times = match start with Some s => s | None => 0 end.
Proof.
  intros H. unfold default_start. destruct start as [s|]; [reflexivity|].
  destruct (times <? 0) eqn:E; [apply Z.ltb_lt in E; lia | reflexivity].
Qed.

(** Forward search for one needle, for either setting of [overlap]. *)
Lemma strfind_str_forward (h sub : str) (start : option Z) (times : Z) (overlap : bool) :
  0 <= times ->
  0 <= default_start h start times ->
  let adv := if overlap then 1 else len sub in
  let c := default_start h start times in
  let r := strfind_str h sub start times overlap in
  (r = -1 /\ forall p, ~ nth_match h sub adv c (Z.to_nat times) p) \/
  nth_match h sub adv c (Z.to_nat times) r.
Proof.
  intros Ht Hc adv c r. subst r. unfold strfind_str.
  destruct (0 <=? times) eqn:E; [|apply Z.leb_gt in E; lia].
  rewrite (to_nat_succ times Ht).
  apply forward_loop_nth; [exact Hc|].
  destruct overlap; [lia | apply len_nonneg].
Qed.

(** C1: forward search for a single needle without overlap.  Let the
    cursor be the [start] given, or 0 when none is given.  For a cursor
    that is not negative and for [times >= 0], [strfind] returns
    normally; its result is occurrence number [times] (counted from 0,
    hence the [(times+1)]-th) in the count that takes the first
    occurrence at or after the cursor and then moves the cursor to that
    occurrence's start plus the needle's length; the result is [-1]
    exactly when one of these steps has no occurrence left.  And
    [strfind('aabbaabb', 'bb', times=1) = 6]. *)
Theorem strfind_forward_nonoverlap :
  (forall (fullstr objstr : str) (start : option Z) (times : Z),
      0 <= times ->
      0 <= match start with Some s => s | None => 0 end ->
      exists r,
        strfind fullstr (Str objstr) start times false = Some r /\
        ((r = -1 /\
          forall p, ~ nth_match fullstr objstr (len objstr)
                        match start with Some s => s | None => 0 end
                        (Z.to_nat times) p) \/
         nth_match fullstr objstr (len objstr)
           match start with Some s => s | None => 0 end
           (Z.to_nat times) r)) /\
  strfind (py "aabbaabb") (Str (py "bb")) None 1 false = Some 6.
Proof.
  split; [|reflexivity].
  intros fullstr objstr start times Ht Hc.
  exists (strfind_str fullstr objstr start times false).
  split; [reflexivity|].
  rewrite <- (default_start_forward fullstr start times Ht) in *.
  exact (strfind_str_forward fullstr objstr start times false Ht Hc).
Qed.

Lemma strfind_forward_nonoverlap_witness :
  exists r,
    strfind (py "aabbaabb") (Str (py "bb")) (Some 3) 1 false = Some r /\
    ((r = -1 /\
      forall p, ~ nth_match (py "aabbaabb") (py "bb") (len (py "bb")) 3
                    (Z.to_nat 1) p) \/
     nth_match (py "aabbaabb") (py "bb") (len (py "bb")) 3 (Z.to_nat 1) r).
Proof.
  apply (proj1 strfind_forward_nonoverlap (py "aabbaabb") (py "bb") (Some 3) 1); lia.
Defined.

(** ** What a search over one needle can return *)

Lemma forward_loop_range (h sub : str) (adv : Z) (n : nat) : forall p,
  forward_loop h sub adv (S n) p = -1 \/
  occurs_at h sub (forward_loop h sub adv (S n) p).
Proof.
  induction n as [|n IH]; intros p; rewrite forward_loop_S;
    destruct (find h sub (p + adv) =? -1) eqn:E; auto.
  apply Z.eqb_neq in E. cbn [forward_loop].
  destruct (find_range h sub (p + adv)); [contradiction | auto].
Qed.

Lemma backward_loop_range (h sub : str) (adv : Z) (n : nat) : forall p,
  backward_loop h sub adv (S n) p = -1 \/
  occurs_at h sub (backward_loop h sub adv (S n) p).
Proof.
  induction n as [|n IH]; intros p; rewrite backward_loop_S;
    destruct (rfind h sub 0 (p - adv) =? -1) eqn:E; auto.
  apply Z.eqb_neq in E. cbn [backward_loop].
  destruct (rfind_range h sub 0 (p - adv)); [contradiction | auto].
Qed.

Lemma to_nat_opp_succ (z : Z) : z < 0 -> Z.to_nat (- z) = S (Z.to_nat (- z - 1)).
Proof. intros H. lia. Qed.

Lemma strfind_str_range (h sub : str) (start : option Z) (times : Z) (overlap : bool) :
  strfind_str h sub start times overlap = -1 \/
  occurs_at h sub (strfind_str h sub start times overlap).
Proof.
  unfold strfind_str. destruct (0 <=? times) eqn:E.
  - apply Z.leb_le in E. rewrite (to_nat_succ times E). apply forward_loop_range.
  - apply Z.leb_gt in E. rewrite (to_nat_opp_succ times E). apply backward_loop_range.
Qed.

(** ** The two reducers *)

Lemma fold_left_min_spec (l : list Z) : forall x,
  In (fold_left Z.min l x) (x :: l) /\
  forall y, In y (x :: l) -> fold_left Z.min l x <= y.
Proof.
  induction l as [|a l IH]; intros x; simpl.
  - split; [auto | intros y [<- | []]; lia].
  - destruct (IH (Z.min x a)) as [Hin Hle].
    set (m := fold_left Z.min l (Z.min x a)) in *. split.
    + destruct Hin as [Hin | Hin]; [|auto].
      destruct (Z.min_spec x a) as [[_ E] | [_ E]]; rewrite E in Hin; auto.
    + intros y Hy.
      assert (Hm : m <= Z.min x a) by (apply Hle; left; reflexivity).
      destruct Hy as [<- | [<- | Hy]]; [lia | lia | apply Hle; right; exact Hy].
Qed.

Lemma fold_left_max_spec (l : list Z) : forall x,
  In (fold_left Z.max l x) (x :: l) /\
  forall y, In y (x :: l) -> y <= fold_left Z.max l x.
Proof.
  induction l as [|a l IH]; intros x; simpl.
  - split; [auto | intros y [<- | []]; lia].
  - destruct (IH (Z.max x a)) as [Hin Hle].
    set (m := fold_left Z.max l (Z.max x a)) in *. split.
    + destruct Hin as [Hin | Hin]; [|auto].
      destruct (Z.max_spec x a) as [[_ E] | [_ E]]; rewrite E in Hin; auto.
    + intros y Hy.
      assert (Hm : Z.max x a <= m) by (apply Hle; left; reflexivity).
      destruct Hy as [<- | [<- | Hy]]; [lia | lia | apply Hle; right; exact Hy].
Qed.

(** Neither reducer raises: [min] and [max] are only reached with a
    tuple that is not empty. *)
Lemma nonnegative_min_value_nearest (ls : list Z) :
  exists r, nonnegative_min_value ls = Some r /\ nearest_forward ls r.
Proof.
  unfold nonnegative_min_value, nearest_forward.
  destruct (filter (fun x => 0 <=? x) ls) as [|a arr] eqn:E.
  - exists (-1). split; [reflexivity|]. left. split; [reflexivity|].
    intros x Hx. destruct (Z_lt_ge_dec x 0) as [Hlt | Hge]; [exact Hlt|].
    assert (Hin : In x (filter (fun x => 0 <=? x) ls))
      by (apply filter_In; split; [exact Hx | apply Z.leb_le; lia]).
    rewrite E in Hin. destruct Hin.
  - exists (fold_left Z.min arr a). split; [reflexivity|].
    destruct (fold_left_min_spec arr a) as [Hin Hle].
    rewrite <- E in Hin, Hle. right.
    apply filter_In in Hin. destruct Hin as [Hin Hpos]. apply Z.leb_le in Hpos.
    split; [exact Hpos | split; [exact Hin|]].
    intros x Hx Hx0. apply Hle. apply filter_In.
    split; [exact Hx | apply Z.leb_le; exact Hx0].
Qed.

Lemma nonnegative_max_value_nearest (ls : list Z) :
  exists r, nonnegative_max_value ls = Some r /\ nearest_backward ls r.
Proof.
  unfold nonnegative_max_value, nearest_backward.
  destruct (filter (fun x => 0 <=? x) ls) as [|a arr] eqn:E.
  - exists (-1). split; [reflexivity|]. left. split; [reflexivity|].
    intros x Hx. destruct (Z_lt_ge_dec x 0) as [Hlt | Hge]; [exact Hlt|].
    assert (Hin : In x (filter (fun x => 0 <=? x) ls))
      by (apply filter_In; split; [exact Hx | apply Z.leb_le; lia]).
    rewrite E in Hin. destruct Hin.
  - exists (fold_left Z.max arr a). split; [reflexivity|].
    destruct (fold_left_max_spec arr a) as [Hin Hle].
    rewrite <- E in Hin, Hle. right.
    apply filter_In in Hin. destruct Hin as [Hin Hpos]. apply Z.leb_le in Hpos.
    split; [exact Hpos | split; [exact Hin|]].
    intros x Hx. destruct (Z_lt_ge_dec x 0) as [Hlt | Hge]; [lia|].
    apply Hle. apply filter_In.
    split; [exact Hx | apply Z.leb_le; lia].
Qed.

Lemma nearest_forward_unique (ls : list Z) (r r' : Z) :
  nearest_forward ls r -> nearest_forward ls r' -> r = r'.
Proof.
  intros [[-> Hn] | (H0 & Hin & Hle)] [[-> Hn'] | (H0' & Hin' & Hle')].
  - reflexivity.
  - specialize (Hn r' Hin'). lia.
  - specialize (Hn' r Hin). lia.
  - specialize (Hle r' Hin' H0'). specialize (Hle' r Hin H0). lia.
Qed.

Lemma nearest_backward_unique (ls : list Z) (r r' : Z) :
  nearest_backward ls r -> nearest_backward ls r' -> r = r'.
Proof.
  intros [[-> Hn] | (H0 & Hin & Hle)] [[-> Hn'] | (H0' & Hin' & Hle')].
  - reflexivity.
  - specialize (Hn r' Hin'). lia.
  - specialize (Hn' r Hin). lia.
  - specialize (Hle r' Hin'). specialize (Hle' r Hin). lia.
Qed.

(** ** The loops over a collection *)

Lemma multi_forward_loop_S (h : str) (l : list str) (ov : bool) (n : nat) (p : Z) :
  multi_forward_loop h l ov (S n) p =
  (q <- nonnegative_min_value
          (map (fun x => strfind_str h x (Some (p + 1)) 0 ov) l) ;;
   if q =? -1 then Some (-1) else multi_forward_loop h l ov n q).
Proof. reflexivity. Qed.

Lemma multi_backward_loop_S (h : str) (l : list str) (ov : bool) (n : nat) (p : Z) :
  multi_backward_loop h l ov (S n) p =
  (q <- nonnegative_max_value
          (map (fun x => strfind_str h x (Some (p - 1)) (-1) ov) l) ;;
   if q =? -1 then Some (-1) else multi_backward_loop h l ov n q).
Proof. reflexivity. Qed.

Lemma rounds_unique (step : Z -> Z -> Prop) (next : Z -> Z) :
  (forall c r r', step c r -> step c r' -> r = r') ->
  forall n c r r',
    rounds step next n c r -> rounds step next n c r' -> r = r'.
Proof.
  intros Hfun n c r r' H. revert r'.
  induction H as [n c Hs | c r Hs Hr | n c q r Hs Hq Hrest IH]; intros r' H'.
  - inversion H' as [n' c' Hs' | c' r'' Hs' Hr' | n' c' q' r'' Hs' Hq' Hrest']; subst.
    + reflexivity.
    + exfalso. apply Hr'. exact (Hfun _ _ _ Hs' Hs).
    + exfalso. apply Hq'. exact (Hfun _ _ _ Hs' Hs).
  - inversion H' as [n' c' Hs' | c' r'' Hs' Hr' | n' c' q' r'' Hs' Hq' Hrest']; subst.
    + exfalso. apply Hr. exact (Hfun _ _ _ Hs Hs').
    + exact (Hfun _ _ _ Hs Hs').
  - inversion H' as [n' c' Hs' | c' r'' Hs' Hr' | n' c' q' r'' Hs' Hq' Hrest']; subst.
    + exfalso. apply Hq. exact (Hfun _ _ _ Hs Hs').
    + apply IH. rewrite (Hfun _ _ _ Hs Hs'). exact Hrest'.
Qed.

Lemma multi_forward_loop_rounds (h : str) (l : list str) (ov : bool) (n : nat) :
  forall c, exists r,
    multi_forward_loop h l ov (S n) (c - 1) = Some r /\
    rounds (forward_round h l ov) (fun q => q + 1) (S n) c r.
Proof.
  induction n as [|n IH]; intros c; rewrite multi_forward_loop_S;
    replace (c - 1 + 1) with c by lia;
    destruct (nonnegative_min_value_nearest
                (map (fun x => strfind_str h x (Some c) 0 ov) l)) as (q & -> & Hq);
    cbn [bind]; destruct (q =? -1) eqn:E.
  - apply Z.eqb_eq in E; subst q. exists (-1). split; [reflexivity|].
    apply rounds_fail. exact Hq.
  - apply Z.eqb_neq in E. exists q. split; [reflexivity|].
    apply rounds_last; assumption.
  - apply Z.eqb_eq in E; subst q. exists (-1). split; [reflexivity|].
    apply rounds_fail. exact Hq.
  - apply Z.eqb_neq in E. destruct (IH (q + 1)) as (r & Hr & Hrounds).
    replace (q + 1 - 1) with q in Hr by lia.
    exists r. split; [exact Hr|].
    eapply rounds_more; eassumption.
Qed.

Lemma multi_backward_loop_rounds (h : str) (l : list str) (ov : bool) (n : nat) :
  forall c, exists r,
    multi_backward_loop h l ov (S n) (c + 1) = Some r /\
    rounds (backward_round h l ov) (fun q => q - 1) (S n) c r.
Proof.
  induction n as [|n IH]; intros c; rewrite multi_backward_loop_S;
    replace (c + 1 - 1) with c by lia;
    destruct (nonnegative_max_value_nearest
                (map (fun x => strfind_str h x (Some c) (-1) ov) l)) as (q & -> & Hq);
    cbn [bind]; destruct (q =? -1) eqn:E.
  - apply Z.eqb_eq in E; subst q. exists (-1). split; [reflexivity|].
    apply rounds_fail. exact Hq.
  - apply Z.eqb_neq in E. exists q. split; [reflexivity|].
    apply rounds_last; assumption.
  - apply Z.eqb_eq in E; subst q. exists (-1). split; [reflexivity|].
    apply rounds_fail. exact Hq.
  - apply Z.eqb_neq in E. destruct (IH (q - 1)) as (r & Hr & Hrounds).
    replace (q - 1 + 1) with q in Hr by lia.
    exists r. split; [exact Hr|].
    eapply rounds_more; eassumption.
Qed.

Lemma forward_round_unique (h : str) (l : list str) (ov : bool) (c r r' : Z) :
  forward_round h l ov c r -> forward_round h l ov c r' -> r = r'.
Proof. apply nearest_forward_unique. Qed.

Lemma backward_round_unique (h : str) (l : list str) (ov : bool) (c r r' : Z) :
  backward_round h l ov c r -> backward_round h l ov c r' -> r = r'.
Proof. apply nearest_backward_unique. Qed.

(** The rounds that a call on a collection makes, for any collection. *)
Lemma strfind_seq_rounds :
  (forall (h : str) (l : list str) (start : option Z) (times : Z) (ov : bool),
      0 <= times ->
      exists r,
        strfind h (Seq l) start times ov = Some r /\
        rounds (forward_round h l ov) (fun q => q + 1)
          (Z.to_nat (times + 1)) (default_start h start times) r) /\
  (forall (h : str) (l : list str) (start : option Z) (times : Z) (ov : bool),
      times < 0 ->
      exists r,
        strfind h (Seq l) start times ov = Some r /\
        rounds (backward_round h l ov) (fun q => q - 1)
          (Z.to_nat (- times)) (default_start h start times) r).
Proof.
  split; intros h l start times ov Ht; unfold strfind.
  - destruct (0 <=? times) eqn:E; [|apply Z.leb_gt in E; lia].
    rewrite (to_nat_succ times Ht). apply multi_forward_loop_rounds.
  - destruct (0 <=? times) eqn:E; [apply Z.leb_le in E; lia|].
    rewrite (to_nat_opp_succ times Ht). apply multi_backward_loop_rounds.
Qed.

(** C3: search over a collection of needles.  Going forward
    ([times >= 0]) the call makes [times + 1] rounds from the start
    cursor, going backward ([times < 0]) it makes [-times] rounds.  A
    round runs the single-needle search for every needle from the cursor
    (with [times] 0 forward, -1 backward) and keeps the nearest answer:
    the least non-negative one forward, the greatest backward; the next
    round starts one past (forward) or one before (backward) the kept
    position.  When no needle gives a non-negative answer in a round the
    call returns [-1] at that round.  The call returns normally, the
    rounds determine its result, and
    [strfind('aabbaabb', ['aa','bb'], times=2) = 4]. *)
Theorem strfind_collection_rounds :
  (forall (fullstr : str) (objstr : list str) (start : option Z) (times : Z)
          (overlap : bool),
      objstr <> [] -> 0 <= times ->
      exists r,
        strfind fullstr (Seq objstr) start times overlap = Some r /\
        rounds (forward_round fullstr objstr overlap) (fun q => q + 1)
          (Z.to_nat (times + 1)) (default_start fullstr start times) r /\
        forall r',
          rounds (forward_round fullstr objstr overlap) (fun q => q + 1)
            (Z.to_nat (times + 1)) (default_start fullstr start times) r' ->
          r' = r) /\
  (forall (fullstr : str) (objstr : list str) (start : option Z) (times : Z)
          (overlap : bool),
      objstr <> [] -> times < 0 ->
      exists r,
        strfind fullstr (Seq objstr) start times overlap = Some r /\
        rounds (backward_round fullstr objstr overlap) (fun q => q - 1)
          (Z.to_nat (- times)) (default_start fullstr start times) r /\
        forall r',
          rounds (backward_round fullstr objstr overlap) (fun q => q - 1)
            (Z.to_nat (- times)) (default_start fullstr start times) r' ->
          r' = r) /\
  strfind (py "aabbaabb") (Seq [py "aa"; py "bb"]) None 2 false = Some 4.
Proof.
  split; [|split; [|reflexivity]].
  - intros h l start times ov _ Ht.
    destruct (proj1 strfind_seq_rounds h l start times ov Ht) as (r & Hr & Hrounds).
    exists r. split; [exact Hr | split; [exact Hrounds|]].
    intros r' H'.
    exact (rounds_unique _ _ (forward_round_unique h l ov) _ _ _ _ H' Hrounds).
  - intros h l start times ov _ Ht.
    destruct (proj2 strfind_seq_rounds h l start times ov Ht) as (r & Hr & Hrounds).
    exists r. split; [exact Hr | split; [exact Hrounds|]].
    intros r' H'.
    exact (rounds_unique _ _ (backward_round_unique h l ov) _ _ _ _ H' Hrounds).
Qed.

Lemma strfind_collection_rounds_witness :
  (exists r,
      strfind (py "aabbaabb") (Seq [py "aa"; py "bb"]) None 2 false = Some r /\
      rounds (forward_round (py "aabbaabb") [py "aa"; py "bb"] false)
        (fun q => q + 1) (Z.to_nat (2 + 1))
        (default_start (py "aabbaabb") None 2) r /\
      forall r',
        rounds (forward_round (py "aabbaabb") [py "aa"; py "bb"] false)
          (fun q => q + 1) (Z.to_nat (2 + 1))
          (default_start (py "aabbaabb") None 2) r' ->
        r' = r) /\
  (exists r,
      strfind (py "aabbaabb") (Seq [py "aa"; py "bb"]) None (-2) true = Some r /\
      rounds (backward_round (py "aabbaabb") [py "aa"; py "bb"] true)
        (fun q => q - 1) (Z.to_nat (- -2))
        (default_start (py "aabbaabb") None (-2)) r /\
      forall r',
        rounds (backward_round (py "aabbaabb") [py "aa"; py "bb"] true)
          (fun q => q - 1) (Z.to_nat (- -2))
          (default_start (py "aabbaabb") None (-2)) r' ->
        r' = r).
Proof.
  split.
  - apply (proj1 strfind_collection_rounds (py "aabbaabb") [py "aa"; py "bb"] None 2 false);
      [discriminate | lia].
  - apply (proj1 (proj2 strfind_collection_rounds)
             (py "aabbaabb") [py "aa"; py "bb"] None (-2) true);
      [discriminate | lia].
Defined.

Lemma rounds_result (step : Z -> Z -> Prop) (next : Z -> Z) (P : Z -> Prop) :
  (forall c r, step c r -> r <> -1 -> P r) ->
  forall n c r, rounds step next n c r -> r = -1 \/ P r.
Proof.
  intros Hstep n c r H.
  induction H as [n c Hs | c r Hs Hr | n c q r Hs Hq Hrest IH].
  - left; reflexivity.
  - right. exact (Hstep c r Hs Hr).
  - exact IH.
Qed.

Lemma round_answer_occurs (h : str) (l : list str) (start : option Z) (times : Z)
    (ov : bool) (r : Z) :
  In r (map (fun x => strfind_str h x start times ov) l) -> r <> -1 ->
  0 <= r /\ exists x, In x l /\ occurs_at h x r.
Proof.
  intros Hin Hr. apply in_map_iff in Hin. destruct Hin as (x & <- & Hx).
  destruct (strfind_str_range h x start times ov) as [E | Ho]; [contradiction|].
  split; [apply Ho | exists x; split; [exact Hx | exact Ho]].
Qed.

Lemma forward_round_occurs (h : str) (l : list str) (ov : bool) (c r : Z) :
  forward_round h l ov c r -> r <> -1 ->
  0 <= r /\ exists x, In x l /\ occurs_at h x r.
Proof.
  intros [[-> _] | (_ & Hin & _)] Hr; [contradiction|].
  exact (round_answer_occurs _ _ _ _ _ _ Hin Hr).
Qed.

Lemma backward_round_occurs (h : str) (l : list str) (ov : bool) (c r : Z) :
  backward_round h l ov c r -> r <> -1 ->
  0 <= r /\ exists x, In x l /\ occurs_at h x r.
Proof.
  intros [[-> _] | (_ & Hin & _)] Hr; [contradiction|].
  exact (round_answer_occurs _ _ _ _ _ _ Hin Hr).
Qed.

(** C6: for every haystack, every needle argument (a string or a
    collection of strings), every integer [times] and [start] (or no
    [start]) and either [overlap], the call returns normally, and what
    it returns is [-1] or a position of the haystack at which one of the
    needles occurs. *)
Theorem strfind_returns_position_or_sentinel
    (fullstr : str) (objstr : needles) (start : option Z) (times : Z)
    (overlap : bool) :
  exists r,
    strfind fullstr objstr start times overlap = Some r /\
    (r = -1 \/
     (0 <= r /\ exists x, needle_of objstr x /\ occurs_at fullstr x r)).
Proof.
  destruct objstr as [sub | l].
  - exists (strfind_str fullstr sub start times overlap). split; [reflexivity|].
    destruct (strfind_str_range fullstr sub start times overlap) as [E | Ho];
      [left; exact E | right].
    split; [apply Ho | exists sub; split; [reflexivity | exact Ho]].
  - destruct (Z_le_gt_dec 0 times) as [Ht | Ht].
    + destruct (proj1 strfind_seq_rounds fullstr l start times overlap Ht)
        as (r & Hr & Hrounds).
      exists r. split; [exact Hr|].
      apply (rounds_result _ _
               (fun r => 0 <= r /\ exists x, In x l /\ occurs_at fullstr x r)
               (forward_round_occurs fullstr l overlap) _ _ _ Hrounds).
    + destruct (proj2 strfind_seq_rounds fullstr l start times overlap
                  ltac:(lia)) as (r & Hr & Hrounds).
      exists r. split; [exact Hr|].
      apply (rounds_result _ _
               (fun r => 0 <= r /\ exists x, In x l /\ occurs_at fullstr x r)
               (backward_round_occurs fullstr l overlap) _ _ _ Hrounds).
Qed.

(** ** Needles longer than the haystack *)

Lemma adjust_start_nonneg (s n : Z) : 0 <= n -> 0 <= adjust_start s n.
Proof.
  intros Hn. unfold adjust_start.
  destruct (s <? 0) eqn:E1; [|apply Z.ltb_ge in E1; exact E1].
  destruct (s + n <? 0) eqn:E2; [lia | apply Z.ltb_ge in E2; exact E2].
Qed.

Lemma adjust_end_le (e n : Z) : 0 <= n -> adjust_end e n <= n.
Proof.
  intros Hn. unfold adjust_end.
  destruct (n <? e) eqn:E1; [lia | apply Z.ltb_ge in E1].
  destruct (e <? 0) eqn:E2; [apply Z.ltb_lt in E2 | exact E1].
  destruct (e + n <? 0); lia.
Qed.

Lemma find_too_long (h sub : str) (c : Z) :
  len h < len sub -> find h sub c = -1.
Proof.
  intros Hlen. unfold find, find3.
  pose proof (adjust_start_nonneg c (len h) (len_nonneg h)).
  pose proof (adjust_end_le (len h) (len h) (len_nonneg h)).
  destruct (_ <? len sub) eqn:E; [reflexivity | apply Z.ltb_ge in E; lia].
Qed.

Lemma rfind_too_long (h sub : str) (b e : Z) :
  len h < len sub -> rfind h sub b e = -1.
Proof.
  intros Hlen. unfold rfind.
  pose proof (adjust_start_nonneg b (len h) (len_nonneg h)).
  pose proof (adjust_end_le e (len h) (len_nonneg h)).
  destruct (_ <? len sub) eqn:E; [reflexivity | apply Z.ltb_ge in E; lia].
Qed.

Lemma strfind_str_too_long (h sub : str) (start : option Z) (times : Z) (ov : bool) :
  len h < len sub -> strfind_str h sub start times ov = -1.
Proof.
  intros Hlen. unfold strfind_str. destruct (0 <=? times) eqn:E.
  - apply Z.leb_le in E. rewrite (to_nat_succ times E), forward_loop_S.
    rewrite (find_too_long h sub _ Hlen). reflexivity.
  - apply Z.leb_gt in E. rewrite (to_nat_opp_succ times E), backward_loop_S.
    rewrite (rfind_too_long h sub _ _ Hlen). reflexivity.
Qed.

Lemma nonnegative_min_value_none (ls : list Z) :
  (forall x, In x ls -> x = -1) -> nonnegative_min_value ls = Some (-1).
Proof.
  intros Hall. destruct (nonnegative_min_value_nearest ls) as (r & -> & Hr).
  destruct Hr as [[-> _] | (H0 & Hin & _)]; [reflexivity|].
  specialize (Hall r Hin). lia.
Qed.

Lemma nonnegative_max_value_none (ls : list Z) :
  (forall x, In x ls -> x = -1) -> nonnegative_max_value ls = Some (-1).
Proof.
  intros Hall. destruct (nonnegative_max_value_nearest ls) as (r & -> & Hr).
  destruct Hr as [[-> _] | (H0 & Hin & _)]; [reflexivity|].
  specialize (Hall r Hin). lia.
Qed.

Lemma strfind_too_long (h : str) (objstr : needles) (start : option Z) (times : Z)
    (ov : bool) :
  (forall x, needle_of objstr x -> len h < len x) ->
  strfind h objstr start times ov = Some (-1).
Proof.
  intros Hall. destruct objstr as [sub | l]; unfold strfind.
  - rewrite (strfind_str_too_long h sub start times ov (Hall sub eq_refl)). reflexivity.
  - assert (Hmap : forall st t x,
              In x (map (fun y => strfind_str h y st t ov) l) -> x = -1).
    { intros st t x Hin. apply in_map_iff in Hin. destruct Hin as (y & <- & Hy).
      apply strfind_str_too_long. apply Hall. exact Hy. }
    destruct (0 <=? times) eqn:E.
    + apply Z.leb_le in E. rewrite (to_nat_succ times E), multi_forward_loop_S.
      rewrite (nonnegative_min_value_none _ (Hmap _ _)). reflexivity.
    + apply Z.leb_gt in E. rewrite (to_nat_opp_succ times E), multi_backward_loop_S.
      rewrite (nonnegative_max_value_none _ (Hmap _ _)). reflexivity.
Qed.

(** C5 as stated fails: the empty needle is found at 0 in the empty
    haystack, alone or as the member of a collection. *)
Lemma strfind_empty_haystack_empty_needle :
  strfind (py "") (Str (py "")) None 0 false = Some 0 /\
  strfind (py "") (Seq [py ""]) None 0 false = Some 0 /\
  ~ (forall (objstr : needles) (start : option Z) (times : Z) (overlap : bool),
        strfind (py "") objstr start times overlap = Some (-1)).
Proof.
  split; [reflexivity | split; [reflexivity|]].
  intros H. specialize (H (Str (py "")) None 0 false). discriminate H.
Qed.

(** C5, amended: when every string of the needle argument is strictly
    longer than the haystack, the call returns [-1], for every [times],
    [start] and [overlap]; in particular an empty haystack searched for
    needles none of which is empty gives [-1]. *)
Theorem strfind_needle_longer_than_haystack :
  (forall (objstr : needles) (start : option Z) (times : Z) (overlap : bool),
      (forall x, needle_of objstr x -> x <> []) ->
      strfind [] objstr start times overlap = Some (-1)) /\
  (forall (fullstr : str) (objstr : needles) (start : option Z) (times : Z)
          (overlap : bool),
      (forall x, needle_of objstr x -> len fullstr < len x) ->
      strfind fullstr objstr start times overlap = Some (-1)).
Proof.
  split.
  - intros objstr start times overlap Hne. apply strfind_too_long.
    intros x Hx. specialize (Hne x Hx).
    destruct x as [|a x]; [contradiction | unfold len; simpl; lia].
  - intros fullstr objstr start times overlap Hall.
    apply strfind_too_long. exact Hall.
Qed.

Lemma strfind_needle_longer_than_haystack_witness :
  strfind [] (Seq [py "a"; py "bc"]) (Some 1) (-2) true = Some (-1) /\
  strfind (py "ab") (Str (py "abc")) None 3 false = Some (-1).
Proof.
  split.
  - apply (proj1 strfind_needle_longer_than_haystack (Seq [py "a"; py "bc"]) (Some 1) (-2) true).
    intros x [<- | [<- | []]]; discriminate.
  - apply (proj2 strfind_needle_longer_than_haystack (py "ab") (Str (py "abc")) None 3 false).
    intros x ->. vm_compute. reflexivity.
Defined.

(** ** Forward, then backward *)

Lemma rfind_at_occurrence (h sub : str) (p : Z) :
  occurs_at h sub p -> rfind h sub 0 (p + len sub) = p.
Proof.
  intros Ho. pose proof (len_nonneg sub) as Hsub.
  assert (He : 0 <= p + len sub) by (destruct Ho as (? & _); lia).
  destruct (rfind_last h sub (p + len sub) He) as [[_ Hno] | (Hr & Hle & Hmax)].
  - exfalso. apply (Hno p Ho). lia.
  - specialize (Hmax p Ho ltac:(lia)). lia.
Qed.

(** C7: when a forward search for one needle ([times >= 0], any start,
    either [overlap]) returns a position [p] other than [-1], a single
    backward step ([times = -1]) started at [p + len(needle) - 1]
    returns [p] again. *)
Theorem strfind_forward_then_backward
    (fullstr objstr : str) (start : option Z) (times : Z) (overlap : bool) (p : Z) :
  0 <= times ->
  strfind fullstr (Str objstr) start times overlap = Some p ->
  p <> -1 ->
  strfind fullstr (Str objstr) (Some (p + len objstr - 1)) (-1) overlap = Some p.
Proof.
  intros _ Hfwd Hp. unfold strfind in *. injection Hfwd as Hfwd.
  destruct (strfind_str_range fullstr objstr start times overlap) as [E | Ho];
    [congruence|].
  rewrite Hfwd in Ho. f_equal.
  unfold strfind_str, default_start.
  change (0 <=? -1) with false. change (Z.to_nat (- -1)) with 1%nat. cbv iota.
  rewrite backward_loop_S. cbn [backward_loop].
  match goal with |- context [rfind fullstr objstr 0 ?e] =>
    replace e with (p + len objstr) by lia end.
  rewrite (rfind_at_occurrence fullstr objstr p Ho).
  destruct (p =? -1) eqn:E; [apply Z.eqb_eq in E; contradiction | reflexivity].
Qed.

Lemma strfind_forward_then_backward_witness :
  strfind (py "aabbaabb") (Str (py "bb")) (Some (6 + len (py "bb") - 1)) (-1) false
  = Some 6.
Proof.
  apply (strfind_forward_then_backward (py "aabbaabb") (py "bb") None 1 false 6);
    [lia | reflexivity | discriminate].
Defined.

(** ** The empty needle and the empty collection *)

Lemma occurs_at_empty (h : str) : occurs_at h [] 0.
Proof.
  unfold occurs_at. pose proof (len_nonneg h).
  split; [lia | split; [unfold len; simpl; lia | reflexivity]].
Qed.

Lemma find_empty_needle (h : str) : find h [] 0 = 0.
Proof.
  destruct (find_first h [] 0 (Z.le_refl 0)) as [[_ Hno] | (Hle & _ & Hno)].
  - exfalso. exact (Hno 0 (Z.le_refl 0) (occurs_at_empty h)).
  - destruct (Z.eq_dec (find h [] 0) 0) as [E | Hne]; [exact E|].
    exfalso. apply (Hno 0); [lia | apply occurs_at_empty].
Qed.

Lemma forward_loop_empty_needle (h : str) (n : nat) :
  forward_loop h [] 0 n 0 = 0.
Proof.
  induction n as [|n IH]; [reflexivity|].
  rewrite forward_loop_S. change (0 + 0) with 0.
  rewrite find_empty_needle. exact IH.
Qed.

(** C9: with the default start and without overlap, searching any
    haystack, the empty one included, for the empty needle returns 0
    for every [times >= 0]; so [strfind('', '') = 0]. *)
Theorem strfind_empty_needle (fullstr : str) (times : Z) :
  0 <= times ->
  strfind fullstr (Str []) None times false = Some 0.
Proof.
  intros Ht. unfold strfind, strfind_str.
  rewrite (default_start_forward fullstr None times Ht).
  destruct (0 <=? times) eqn:E; [|apply Z.leb_gt in E; lia].
  change (len []) with 0. change (0 - 0) with 0.
  rewrite forward_loop_empty_needle. reflexivity.
Qed.

Lemma strfind_empty_needle_witness :
  strfind (py "") (Str []) None 0 false = Some 0 /\
  strfind (py "abc") (Str []) None 5 false = Some 0.
Proof.
  split.
  - apply (strfind_empty_needle (py "") 0). lia.
  - apply (strfind_empty_needle (py "abc") 5). lia.
Defined.

(** C10: with an empty list or tuple of needles the call returns [-1],
    and does not raise, for every haystack, [times], [start] and
    [overlap]: the first round has no answers to choose from. *)
Theorem strfind_empty_collection
    (fullstr : str) (start : option Z) (times : Z) (overlap : bool) :
  strfind fullstr (Seq []) start times overlap = Some (-1).
Proof.
  unfold strfind. destruct (0 <=? times) eqn:E.
  - apply Z.leb_le in E. rewrite (to_nat_succ times E). reflexivity.
  - apply Z.leb_gt in E. rewrite (to_nat_opp_succ times E). reflexivity.
Qed.

(** ** Backward search for one needle *)

(** A single backward step is as it should be: from a start [c >= -1]
    it gives the last occurrence that ends at or before index [c]. *)
Lemma strfind_str_backward_once (h sub : str) (c : Z) (ov : bool) :
  -1 <= c ->
  (strfind_str h sub (Some c) (-1) ov = -1 /\
   forall q, occurs_at h sub q -> ~ q + len sub <= c + 1) \/
  last_within h sub (c + 1) (strfind_str h sub (Some c) (-1) ov).
Proof.
  intros Hc. unfold strfind_str, default_start.
  change (0 <=? -1) with false. change (Z.to_nat (- -1)) with 1%nat. cbv iota.
  rewrite backward_loop_S. cbn [backward_loop].
  match goal with |- context [rfind h sub 0 ?e] =>
    replace e with (c + 1) by lia end.
  destruct (rfind_last h sub (c + 1) ltac:(lia)) as [[E Hno] | Hl].
  - left. rewrite E. split; [reflexivity | exact Hno].
  - right. destruct (rfind h sub 0 (c + 1) =? -1) eqn:E; [|exact Hl].
    apply Z.eqb_eq in E. destruct Hl as ((H0 & _) & _). lia.
Qed.

Lemma occurs_aabb_aa (q : Z) :
  occurs_at (py "aabb") (py "aa") q -> q = 0.
Proof.
  intros H. pose proof H as (H0 & H1 & _). apply match_at_occurs in H.
  change (len (py "aa")) with 2 in H1. change (len (py "aabb")) with 4 in H1.
  assert (Hq : q = 0 \/ q = 1 \/ q = 2) by lia.
  destruct Hq as [-> | [-> | ->]]; [reflexivity | |]; vm_compute in H; discriminate H.
Qed.

(** C2 on the code: a backward search for the second occurrence
    ([times = -2]) goes wrong.  In ['aabb'] the needle ['aa'] occurs
    only at 0, yet the call returns 0 where there is no second
    occurrence: after the first match at 0 the next window end is
    [0 - 2], which [rfind] reads as an index from the end.  In ['aaaa']
    the occurrences at 2 and at 0 do not overlap, yet the call returns
    [-1]: the next window ends at [2 - 2] rather than at 2.  A single
    step gives the start of the match, as in
    [strfind('aabbaabb', 'aa', times=-1) = 4]. *)
Theorem strfind_backward_second_occurrence :
  strfind (py "aabb") (Str (py "aa")) None (-2) false = Some 0 /\
  (forall p, ~ nth_match_back (py "aabb") (py "aa") 3 1 p) /\
  strfind (py "aaaa") (Str (py "aa")) None (-2) false = Some (-1) /\
  nth_match_back (py "aaaa") (py "aa") 3 1 0 /\
  strfind (py "aabbaabb") (Str (py "aa")) None (-1) false = Some 4.
Proof.
  split; [reflexivity|]. split; [|split; [reflexivity|split; [|reflexivity]]].
  - intros p H. inversion H as [|c q k p' Hq Hrest]; subst.
    destruct Hq as (Hoq & _). apply occurs_aabb_aa in Hoq. subst q.
    inversion Hrest as [c p' ((Hp0 & _) & Hp & _)|]; subst.
    change (len (py "aa")) with 2 in Hp. lia.
  - assert (Hocc : forall q, match_at (py "aaaa") (py "aa") q = true ->
                             occurs_at (py "aaaa") (py "aa") q)
      by (intros q; apply match_at_occurs).
    apply nth_match_back_next with (q := 2).
    + split; [apply Hocc; reflexivity|].
      change (len (py "aa")) with 2. split; [lia | intros q _ Hq; lia].
    + apply nth_match_back_first.
      split; [apply Hocc; reflexivity|].
      change (len (py "aa")) with 2. split; [lia | intros q _ Hq; lia].
Qed.

(** ** The overlap flag and collections *)

Lemma strfind_str_first_overlap (h x : str) (c : Z) (ov : bool) :
  strfind_str h x (Some c) 0 ov = strfind_str h x (Some c) 0 true.
Proof.
  unfold strfind_str, default_start. change (0 <=? 0) with true.
  change (Z.to_nat (0 + 1)) with 1%nat. cbv iota.
  rewrite !forward_loop_S.
  replace (c - (if ov then 1 else len x) + (if ov then 1 else len x)) with (c - 1 + 1) by lia.
  reflexivity.
Qed.

Lemma strfind_str_last_overlap (h x : str) (c : Z) (ov : bool) :
  strfind_str h x (Some c) (-1) ov = strfind_str h x (Some c) (-1) true.
Proof.
  unfold strfind_str, default_start. change (0 <=? -1) with false.
  change (Z.to_nat (- -1)) with 1%nat. cbv iota.
  rewrite !backward_loop_S.
  replace (c + (if ov then 1 else len x) + 1 - (if ov then 1 else len x))
    with (c + 1 + 1 - 1) by lia.
  reflexivity.
Qed.

Lemma multi_forward_loop_overlap (h : str) (l : list str) (ov : bool) (n : nat) :
  forall p, multi_forward_loop h l ov n p = multi_forward_loop h l true n p.
Proof.
  induction n as [|n IH]; intros p; [reflexivity|].
  rewrite !multi_forward_loop_S.
  rewrite (map_ext _ _ (fun x => strfind_str_first_overlap h x (p + 1) ov)).
  destruct (nonnegative_min_value _) as [q|]; [|reflexivity].
  cbn [bind]. destruct (q =? -1); [reflexivity | apply IH].
Qed.

Lemma multi_backward_loop_overlap (h : str) (l : list str) (ov : bool) (n : nat) :
  forall p, multi_backward_loop h l ov n p = multi_backward_loop h l true n p.
Proof.
  induction n as [|n IH]; intros p; [reflexivity|].
  rewrite !multi_backward_loop_S.
  rewrite (map_ext _ _ (fun x => strfind_str_last_overlap h x (p - 1) ov)).
  destruct (nonnegative_max_value _) as [q|]; [|reflexivity].
  cbn [bind]. destruct (q =? -1); [reflexivity | apply IH].
Qed.

(** C4 on the code: for a single needle the flag works as stated
    ([strfind('aaaa', 'aa', times=1)] is 2, and 1 with [overlap=True]),
    but a search over a collection gives the same result whatever the
    flag: its cursor always moves by 1, so that
    [strfind('aaaa', ['aa'], times=1)] is 1 although [overlap] is
    false. *)
Theorem strfind_collection_ignores_overlap :
  strfind (py "aaaa") (Str (py "aa")) None 1 false = Some 2 /\
  strfind (py "aaaa") (Str (py "aa")) None 1 true = Some 1 /\
  strfind (py "aaaa") (Seq [py "aa"]) None 1 false = Some 1 /\
  (forall (fullstr : str) (objstr : list str) (start : option Z) (times : Z),
      strfind fullstr (Seq objstr) start times false =
      strfind fullstr (Seq objstr) start times true).
Proof.
  repeat (split; [reflexivity|]).
  intros fullstr objstr start times. unfold strfind.
  destruct (0 <=? times);
    [apply multi_forward_loop_overlap | apply multi_backward_loop_overlap].
Qed.

(** ** Excel column names *)

Example doc_int2excel :
  int2excel_col_name 10 1 = Some (py "A") /\
  int2excel_col_name 10 28 = Some (py "AB") /\
  int2excel_col_name 10 100 = Some (py "CV").
Proof. repeat split. Qed.

Example doc_excel2int :
  excel_col_name2int (py "A") = 1 /\
  excel_col_name2int (py "AA") = 27 /\
  excel_col_name2int (py "AB") = 28.
Proof. repeat split. Qed.

Example doc_gentuple :
  gentuple 10 4 (TagStr (py "A")) =
  Returns [VStr (py "A"); VStr (py "B"); VStr (py "C"); VStr (py "D")].
Proof. reflexivity. Qed.

Lemma ord_chr (i : Z) : 0 <= i < 256 -> ord (chr i) = i.
Proof.
  intros H. unfold ord, chr. rewrite N_ascii_embedding; lia.
Qed.

Lemma chr_ord (ch : ascii) : chr (ord ch) = ch.
Proof.
  unfold ord, chr. rewrite N2Z.id. apply ascii_N_embedding.
Qed.

Lemma excel_col_name2int_snoc (s : str) (ch : ascii) :
  excel_col_name2int (s ++ [ch]) = excel_col_name2int s * 26 + (ord ch - 64).
Proof. unfold excel_col_name2int. rewrite fold_left_app. reflexivity. Qed.

Lemma int2excel_loop_S (fuel : nat) (d : Z) (s : list str) :
  int2excel_loop (S fuel) d s =
  if d =? 0 then Some s
  else int2excel_loop fuel ((d - 1) / 26) (s ++ [[chr (65 + (d - 1) mod 26)]]).
Proof. reflexivity. Qed.

(** The letters that the loop appends for [d >= 0], and what they
    decode to. *)
Lemma int2excel_loop_decodes (fuel : nat) : forall d s,
  0 <= d < Z.of_nat fuel ->
  exists l,
    int2excel_loop fuel d s = Some (s ++ map (fun ch => [ch]) l) /\
    excel_col_name2int (rev l) = d /\
    Forall is_capital l.
Proof.
  induction fuel as [|fuel IH]; intros d s Hd; [lia|].
  rewrite int2excel_loop_S. destruct (d =? 0) eqn:E.
  - apply Z.eqb_eq in E. subst d. exists []. rewrite app_nil_r.
    split; [reflexivity | split; [reflexivity | constructor]].
  - apply Z.eqb_neq in E.
    pose proof (Z.mod_pos_bound (d - 1) 26 ltac:(lia)) as Ht.
    pose proof (Z.div_mod (d - 1) 26 ltac:(lia)) as Hdm.
    assert (Hq : 0 <= (d - 1) / 26 < Z.of_nat fuel).
    { split; [apply Z.div_pos; lia|].
      assert ((d - 1) / 26 <= d - 1) by (apply Z.div_le_upper_bound; lia). lia. }
    destruct (IH ((d - 1) / 26) (s ++ [[chr (65 + (d - 1) mod 26)]]) Hq)
      as (l & Hl & Hdec & Hcap).
    exists (chr (65 + (d - 1) mod 26) :: l).
    split; [|split].
    + rewrite Hl, <- app_assoc. reflexivity.
    + cbn [rev]. rewrite excel_col_name2int_snoc, Hdec, ord_chr by lia. lia.
    + constructor; [|exact Hcap]. unfold is_capital. rewrite ord_chr by lia. lia.
Qed.

Lemma concat_singletons (l : str) : concat (map (fun ch => [ch]) l) = l.
Proof. induction l as [|a l IH]; [reflexivity | simpl; f_equal; exact IH]. Qed.

Lemma rev_singletons (l : str) :
  rev (map (fun ch => [ch]) l) = map (fun ch => [ch]) (rev l).
Proof. symmetry. apply map_rev. Qed.

Lemma int2excel_loop_more_fuel (fuel : nat) : forall fuel' d s r,
  (fuel <= fuel')%nat ->
  int2excel_loop fuel d s = Some r -> int2excel_loop fuel' d s = Some r.
Proof.
  induction fuel as [|fuel IH]; intros fuel' d s r Hle H; [discriminate H|].
  destruct fuel' as [|fuel']; [lia|].
  rewrite int2excel_loop_S in *. destruct (d =? 0); [exact H|].
  apply (IH fuel'); [lia | exact H].
Qed.

Lemma excel_col_name2int_capitals (s : str) :
  Forall is_capital s ->
  0 <= excel_col_name2int s /\ (s <> [] -> 1 <= excel_col_name2int s).
Proof.
  induction s as [|ch s IH] using rev_ind; intros Hcap.
  - split; [reflexivity | congruence].
  - apply Forall_app in Hcap. destruct Hcap as [Hs Hch].
    inversion Hch as [|? ? Hc _]; subst. unfold is_capital in Hc.
    rewrite excel_col_name2int_snoc.
    destruct (IH Hs) as [H0 _]. split; [lia | intros _; lia].
Qed.

(** X1: for [d >= 0] the loop of [int2excel_col_name] ends (within
    [d + 1] rounds), the name it returns consists of capital letters
    only, and [excel_col_name2int] maps the name back to [d]; for
    [d = 0] the name is empty. *)
Theorem excel_name_of_int_roundtrip (d : Z) :
  0 <= d ->
  exists name,
    (forall fuel, (Z.to_nat d < fuel)%nat -> int2excel_col_name fuel d = Some name) /\
    Forall is_capital name /\
    excel_col_name2int name = d /\
    (d = 0 -> name = []).
Proof.
  intros Hd.
  destruct (int2excel_loop_decodes (S (Z.to_nat d)) d [] ltac:(lia)) as (l & Hl & Hdec & Hcap).
  exists (rev l). split; [|split; [|split]].
  - intros fuel Hfuel. unfold int2excel_col_name.
    rewrite (int2excel_loop_more_fuel (S (Z.to_nat d)) fuel d [] _ ltac:(lia) Hl).
    cbn [app].
    rewrite rev_singletons, concat_singletons. reflexivity.
  - apply Forall_rev. exact Hcap.
  - exact Hdec.
  - intros ->. destruct (rev l) as [|a l'] eqn:E; [reflexivity|].
    exfalso. apply Forall_rev in Hcap. rewrite E in Hcap.
    destruct (excel_col_name2int_capitals _ Hcap) as [_ H1].
    specialize (H1 ltac:(discriminate)). lia.
Qed.

Lemma excel_name_of_int_roundtrip_witness :
  exists name,
    (forall fuel, (Z.to_nat 100 < fuel)%nat -> int2excel_col_name fuel 100 = Some name) /\
    Forall is_capital name /\
    excel_col_name2int name = 100 /\
    (100 = 0 -> name = []).
Proof. apply (excel_name_of_int_roundtrip 100). lia. Defined.

(** X2: a negative [d] never leaves the loop of
    [int2excel_col_name]: [(d - 1) // 26] is negative again, so [d]
    never becomes 0, however many rounds are allowed. *)
Theorem excel_name_of_negative_diverges (fuel : nat) (d : Z) :
  d < 0 -> int2excel_col_name fuel d = None.
Proof.
  intros Hd. unfold int2excel_col_name.
  assert (H : forall s, int2excel_loop fuel d s = None); [|rewrite H; reflexivity].
  revert d Hd. induction fuel as [|fuel IH]; intros d Hd s; [reflexivity|].
  rewrite int2excel_loop_S.
  destruct (d =? 0) eqn:E; [apply Z.eqb_eq in E; lia|].
  apply IH. apply Z.div_lt_upper_bound; lia.
Qed.

Lemma excel_name_of_negative_diverges_witness :
  int2excel_col_name 1000 (-1) = None.
Proof. apply (excel_name_of_negative_diverges 1000 (-1)). lia. Defined.

Lemma int2excel_loop_encodes (s : str) : forall fuel acc,
  Forall is_capital s ->
  (length s < fuel)%nat ->
  int2excel_loop fuel (excel_col_name2int s) acc =
  Some (acc ++ map (fun ch => [ch]) (rev s)).
Proof.
  induction s as [|ch s IH] using rev_ind; intros fuel acc Hcap Hfuel.
  - destruct fuel as [|fuel]; [simpl in Hfuel; lia|].
    cbn. rewrite app_nil_r. reflexivity.
  - apply Forall_app in Hcap. destruct Hcap as [Hs Hch].
    inversion Hch as [|? ? Hc _]; subst. unfold is_capital in Hc.
    rewrite length_app in Hfuel. cbn [length] in Hfuel.
    destruct fuel as [|fuel]; [lia|].
    rewrite int2excel_loop_S, excel_col_name2int_snoc.
    destruct (excel_col_name2int_capitals s Hs) as [H0 _].
    set (e := excel_col_name2int s) in *.
    destruct (e * 26 + (ord ch - 64) =? 0) eqn:E; [apply Z.eqb_eq in E; lia|].
    replace (e * 26 + (ord ch - 64) - 1) with (ord ch - 65 + e * 26) by lia.
    rewrite Z.mod_add, Z.div_add by lia.
    rewrite Z.mod_small, Z.div_small by lia.
    replace (65 + (ord ch - 65)) with (ord ch) by lia. rewrite chr_ord.
    cbn [Z.add]. unfold e. rewrite (IH fuel _ Hs ltac:(lia)).
    rewrite rev_app_distr, <- app_assoc. reflexivity.
Qed.

(** X3: a name made of capital letters only is recovered from its
    number: [int2excel_col_name(excel_col_name2int(s)) = s], the loop
    ending within [len(s) + 1] rounds. *)
Theorem excel_int_of_name_roundtrip (s : str) (fuel : nat) :
  Forall is_capital s ->
  (length s < fuel)%nat ->
  int2excel_col_name fuel (excel_col_name2int s) = Some s.
Proof.
  intros Hcap Hfuel. unfold int2excel_col_name.
  rewrite (int2excel_loop_encodes s fuel [] Hcap Hfuel). cbn [app].
  rewrite rev_singletons, rev_involutive, concat_singletons. reflexivity.
Qed.

Lemma excel_int_of_name_roundtrip_witness :
  int2excel_col_name 5 (excel_col_name2int (py "XFD")) = Some (py "XFD").
Proof.
  apply (excel_int_of_name_roundtrip (py "XFD") 5).
  - repeat (apply Forall_cons; [vm_compute; split; discriminate|]).
    apply Forall_nil.
  - simpl. lia.
Defined.

(** ** [gentuple] *)

Lemma set_item_app {A : Type} (pre : list A) (x v : A) (r : list A) :
  set_item (pre ++ x :: r) (length pre) v = Returns (pre ++ v :: r).
Proof.
  induction pre as [|y pre IH]; [reflexivity|].
  cbn [app length set_item]. rewrite IH. reflexivity.
Qed.

Lemma number_loop_seq (t : Z) (m : nat) : forall (pre rest : list value),
  length rest = m ->
  number_loop t (map Z.of_nat (seq (length pre) m)) (pre ++ rest) =
  Returns (pre ++ map (fun i => VInt (Z.of_nat i + t)) (seq (length pre) m)).
Proof.
  induction m as [|m IH]; intros pre rest Hlen.
  - destruct rest; [|discriminate Hlen]. reflexivity.
  - destruct rest as [|x rest]; [discriminate Hlen|]. injection Hlen as Hlen.
    cbn [seq map number_loop]. rewrite Nat2Z.id, set_item_app.
    specialize (IH (pre ++ [VInt (Z.of_nat (length pre) + t)]) rest Hlen).
    rewrite length_app in IH. cbn [length] in IH.
    replace (length pre + 1)%nat with (S (length pre)) in IH by lia.
    rewrite <- !app_assoc in IH. exact IH.
Qed.

Lemma map_outcome_returns {A B : Type} (f : A -> outcome B) (g : A -> B) (xs : list A) :
  (forall x, In x xs -> f x = Returns (g x)) ->
  map_outcome f xs = Returns (map g xs).
Proof.
  induction xs as [|x xs IH]; intros H; [reflexivity|].
  cbn [map_outcome map]. rewrite (H x (or_introl eq_refl)).
  rewrite IH; [reflexivity | intros y Hy; apply H; right; exact Hy].
Qed.

Lemma py_range_bounds (n i : Z) : In i (py_range n) -> 0 <= i < n.
Proof.
  unfold py_range. intros H. apply in_map_iff in H.
  destruct H as (k & <- & Hk). apply in_seq in Hk. lia.
Qed.

Lemma py_range_length (n : Z) : length (py_range n) = Z.to_nat n.
Proof. unfold py_range. rewrite length_map, length_seq. reflexivity. Qed.

(** X4: with an [int] tag, [gentuple(n, tag)] is the list
    [tag, tag + 1, ..., tag + n - 1] (empty when [n <= 0]); no
    assignment of the loop falls outside the list. *)
Theorem gentuple_int_tag (fuel : nat) (n t : Z) :
  gentuple fuel n (TagInt t) = Returns (map (fun i => VInt (i + t)) (py_range n)).
Proof.
  unfold gentuple, py_range.
  pose proof (number_loop_seq t (Z.to_nat n) [] (repeat (VStr []) (Z.to_nat n))
                (repeat_length _ _)) as H.
  cbn [length app] in H. rewrite H, map_map. reflexivity.
Qed.

Lemma int2excel_col_name_decodes (fuel : nat) (d : Z) :
  0 <= d -> (Z.to_nat d < fuel)%nat ->
  exists name,
    int2excel_col_name fuel d = Some name /\
    Forall is_capital name /\
    excel_col_name2int name = d.
Proof.
  intros Hd Hfuel.
  destruct (int2excel_loop_decodes fuel d [] ltac:(lia)) as (l & Hl & Hdec & Hcap).
  exists (rev l). unfold int2excel_col_name. rewrite Hl. cbn [app].
  rewrite rev_singletons, concat_singletons.
  split; [reflexivity | split; [apply Forall_rev; exact Hcap | exact Hdec]].
Qed.

Lemma map_outcome_names (fuel : nat) (xs : list Z) :
  (forall x, In x xs -> 0 <= x /\ (Z.to_nat (x + 1) < fuel)%nat) ->
  exists names,
    map_outcome
      (fun x => match int2excel_col_name fuel (x + 1) with
                | Some name => Returns (VStr name)
                | None => OutOfFuel
                end) xs = Returns (map VStr names) /\
    map excel_col_name2int names = map (fun x => x + 1) xs /\
    Forall (Forall is_capital) names.
Proof.
  induction xs as [|x xs IH]; intros H.
  - exists []. split; [reflexivity | split; [reflexivity | constructor]].
  - destruct (H x (or_introl eq_refl)) as [Hx Hfuel].
    destruct (int2excel_col_name_decodes fuel (x + 1) ltac:(lia) Hfuel)
      as (name & Hname & Hcap & Hdec).
    destruct (IH (fun y Hy => H y (or_intror Hy))) as (names & Hnames & Hdecs & Hcaps).
    exists (name :: names). cbn [map_outcome map]. rewrite Hname, Hnames, Hdec, Hdecs.
    split; [reflexivity | split; [reflexivity | constructor; assumption]].
Qed.

(** X5: [gentuple(n, 'A')] returns [n] names of capital letters, and
    [excel_col_name2int] maps the name at index [i] to [i + 1]: the
    names are those of the Excel columns 1..n in order.  (Every loop
    of [int2excel_col_name] ends within [n + 1] rounds.) *)
Theorem gentuple_excel_names (fuel : nat) (n : Z) :
  (Z.to_nat n < fuel)%nat ->
  exists names,
    gentuple fuel n (TagStr (py "A")) = Returns (map VStr names) /\
    length names = Z.to_nat n /\
    map excel_col_name2int names = map (fun i => i + 1) (py_range n) /\
    Forall (Forall is_capital) names.
Proof.
  intros Hfuel. unfold gentuple.
  change (str_eqb (py "A") (py "A")) with true. cbv iota.
  destruct (map_outcome_names fuel (py_range n)) as (names & Hret & Hdec & Hcap).
  { intros x Hx. apply py_range_bounds in Hx. lia. }
  exists names. split; [exact Hret | split; [|split; assumption]].
  rewrite <- (length_map excel_col_name2int), Hdec, length_map. apply py_range_length.
Qed.

Lemma gentuple_excel_names_witness :
  exists names,
    gentuple 10 4 (TagStr (py "A")) = Returns (map VStr names) /\
    length names = Z.to_nat 4 /\
    map excel_col_name2int names = map (fun i => i + 1) (py_range 4) /\
    Forall (Forall is_capital) names.
Proof. apply (gentuple_excel_names 10 4). simpl. lia. Defined.

Lemma tag_item_mod (l : list value) (x : Z) :
  l <> [] -> 0 <= x ->
  exists v, tag_item l (x mod Z.of_nat (length l)) = Returns v /\
            nth_error l (Z.to_nat (x mod Z.of_nat (length l))) = Some v.
Proof.
  intros Hl Hx. unfold tag_item.
  assert (Hk : 0 < Z.of_nat (length l)) by (destruct l; [congruence | simpl; lia]).
  pose proof (Z.mod_pos_bound x _ Hk) as Hm.
  destruct (nth_error l (Z.to_nat (x mod Z.of_nat (length l)))) as [v|] eqn:E.
  - exists v. split; reflexivity.
  - apply nth_error_None in E. lia.
Qed.

Lemma map_outcome_cycle (l : list value) (xs : list Z) :
  l <> [] -> (forall x, In x xs -> 0 <= x) ->
  exists a,
    map_outcome
      (fun x => if Z.of_nat (length l) =? 0 then Raises
                else tag_item l (x mod Z.of_nat (length l))) xs = Returns a /\
    map Some a =
    map (fun x => nth_error l (Z.to_nat (x mod Z.of_nat (length l)))) xs.
Proof.
  intros Hl. induction xs as [|x xs IH]; intros H.
  - exists []. split; reflexivity.
  - destruct (tag_item_mod l x Hl (H x (or_introl eq_refl))) as (v & Hv & Hnth).
    destruct (IH (fun y Hy => H y (or_intror Hy))) as (a & Ha & Hmap).
    exists (v :: a). cbn [map_outcome map].
    assert (Hk : (Z.of_nat (length l) =? 0) = false)
      by (apply Z.eqb_neq; destruct l; [congruence | simpl; lia]).
    rewrite Hk in *. rewrite Hv, Ha, Hnth, Hmap. split; reflexivity.
Qed.

(** X6: with a list or tuple as tag that is not empty,
    [gentuple(n, tag)] returns [n] items, the item at index [i] being
    [tag[i % len(tag)]]: the tag is cycled through.  With an empty
    tag the call raises ([ZeroDivisionError]) as soon as [n >= 1], and
    returns the empty tuple otherwise. *)
Theorem gentuple_cycles_tag (fuel : nat) (n : Z) (tag : list value) :
  (tag <> [] ->
   exists a,
     gentuple fuel n (TagSeq tag) = Returns a /\
     length a = Z.to_nat n /\
     forall i, 0 <= i < n ->
       nth_error a (Z.to_nat i) =
       nth_error tag (Z.to_nat (i mod Z.of_nat (length tag)))) /\
  (tag = [] -> 1 <= n -> gentuple fuel n (TagSeq tag) = Raises) /\
  (tag = [] -> n <= 0 -> gentuple fuel n (TagSeq tag) = Returns []).
Proof.
  split; [|split].
  - intros Hne. unfold gentuple.
    destruct (map_outcome_cycle tag (py_range n) Hne) as (a & Ha & Hmap).
    { intros x Hx. apply py_range_bounds in Hx. lia. }
    exists a. split; [exact Ha|].
    assert (Hlen : length a = Z.to_nat n).
    { rewrite <- (length_map Some), Hmap, length_map. apply py_range_length. }
    split; [exact Hlen|]. intros i Hi.
    assert (Hnth : nth_error (map Some a) (Z.to_nat i) =
                   Some (nth_error tag (Z.to_nat (i mod Z.of_nat (length tag))))).
    { rewrite Hmap. unfold py_range. rewrite map_map.
      rewrite nth_error_map, nth_error_seq by lia.
      destruct (Z.to_nat i <? Z.to_nat n)%nat eqn:E;
        [|apply Nat.ltb_ge in E; lia].
      cbn. rewrite Z2Nat.id by lia. reflexivity. }
    rewrite nth_error_map in Hnth.
    destruct (nth_error a (Z.to_nat i)) as [v|]; cbn in Hnth.
    + injection Hnth as Hnth. exact Hnth.
    + discriminate Hnth.
  - intros -> Hn. unfold gentuple, py_range.
    destruct (Z.to_nat n) as [|m] eqn:E; [lia | reflexivity].
  - intros -> Hn. unfold gentuple, py_range.
    replace (Z.to_nat n) with 0%nat by lia. reflexivity.
Qed.

Lemma gentuple_cycles_tag_witness :
  (exists a,
     gentuple 0 5 (TagSeq [VStr (py "A"); VStr (py "B")]) = Returns a /\
     length a = Z.to_nat 5 /\
     forall i, 0 <= i < 5 ->
       nth_error a (Z.to_nat i) =
       nth_error [VStr (py "A"); VStr (py "B")]
         (Z.to_nat (i mod Z.of_nat (length [VStr (py "A"); VStr (py "B")])))) /\
  gentuple 0 3 (TagSeq []) = Raises /\
  gentuple 0 0 (TagSeq []) = Returns [].
Proof.
  split; [|split].
  - apply (proj1 (gentuple_cycles_tag 0 5 [VStr (py "A"); VStr (py "B")])).
    discriminate.
  - apply (proj1 (proj2 (gentuple_cycles_tag 0 3 []))); [reflexivity | lia].
  - apply (proj2 (proj2 (gentuple_cycles_tag 0 0 []))); [reflexivity | lia].
Defined.

(** ** Two-dimensional arrays *)

Example doc_len_in_dim2 :
  len_in_dim2 [Row [1; 1]; Row [2]; Row [3; 3; 3]] = 3 /\
  len_in_dim2 [Cell 1; Cell 2; Cell 3] = 1.
Proof. split; reflexivity. Qed.

Example doc_ensure_array :
  ensure_array (VStr []) [Row [VInt 1; VInt 1]; Row [VInt 2]; Row [VInt 3; VInt 3; VInt 3]] =
  [Row [VInt 1; VInt 1; VStr []]; Row [VInt 2; VStr []; VStr []];
   Row [VInt 3; VInt 3; VInt 3]].
Proof. reflexivity. Qed.

Example doc_swap_rowcol :
  swap_rowcol (fun _ => None) [Row [1; 2; 3]; Row [4; 5; 6]] false 0 =
  Some [[1; 4]; [2; 5]; [3; 6]].
Proof. reflexivity. Qed.

(** Single elements that are strings are iterated by [zip]:
    [swap_rowcol(['ab', 'cd'])] is [[['a', 'c'], ['b', 'd']]]. *)
Example swap_rowcol_strings :
  swap_rowcol (fun v : str => Some (map (fun ch => [ch]) v))
    [Cell (py "ab"); Cell (py "cd")] true (py "") =
  Some [[py "a"; py "c"]; [py "b"; py "d"]].
Proof. reflexivity. Qed.

Example doc_arr_hangclear :
  option_map table_value
    (arr_hangclear value_eqb (VStr [])
       (table_of_rows
          [[VInt 1; VInt 2; VInt 4]; [VInt 1; VInt 2; VInt 5];
           [VInt 1; VInt 3; VInt 5]; [VInt 1; VInt 3; VInt 5]]) None) =
  Some [[VInt 1; VInt 2; VInt 4]; [VStr []; VStr []; VInt 5];
        [VStr []; VInt 3; VInt 5]; [VStr []; VStr []; VInt 5]] /\
  option_map table_value
    (arr_hangclear value_eqb (VStr [])
       (table_of_rows
          [[VInt 1; VInt 2; VInt 4]; [VInt 1; VInt 2; VInt 5];
           [VInt 2; VInt 2; VInt 5]; [VInt 1; VInt 2; VInt 5]]) None) =
  Some [[VInt 1; VInt 2; VInt 4]; [VStr []; VStr []; VInt 5];
        [VInt 2; VInt 2; VInt 5]; [VInt 1; VInt 2; VInt 5]].
Proof. split; reflexivity. Qed.

(** Rows that are one object are blanked together:
    [arr_hangclear([[1, 2, 3]] * 3)] is three times [['', '', 3]]. *)
Example arr_hangclear_shared_rows :
  option_map table_value
    (arr_hangclear Z.eqb 0 (mkTable [0; 0; 0]%nat [[1; 2; 3]]) None) =
  Some [[0; 0; 3]; [0; 0; 3]; [0; 0; 3]].
Proof. reflexivity. Qed.

Lemma fold_max_width {V : Type} (arr : list (item V)) : forall c,
  c <= fold_left (fun column_num it => Z.max column_num (item_width it)) arr c /\
  (forall it, In it arr ->
     item_width it <= fold_left (fun column_num it => Z.max column_num (item_width it)) arr c) /\
  (fold_left (fun column_num it => Z.max column_num (item_width it)) arr c = c \/
   exists it, In it arr /\
     item_width it = fold_left (fun column_num it => Z.max column_num (item_width it)) arr c).
Proof.
  induction arr as [|x arr IH]; intros c; cbn [fold_left].
  - split; [lia | split; [intros it [] | left; reflexivity]].
  - destruct (IH (Z.max c (item_width x))) as (Hc & Hall & Hex).
    split; [lia | split].
    + intros it [<- | Hin]; [lia | apply Hall; exact Hin].
    + destruct Hex as [E | (it & Hin & E)].
      * destruct (Z.max_spec c (item_width x)) as [[_ Hm] | [_ Hm]].
        -- right. exists x. split; [left; reflexivity | lia].
        -- left. lia.
      * right. exists it. split; [right; exact Hin | exact E].
Qed.

Lemma item_width_nonneg {V : Type} (it : item V) : 0 <= item_width it.
Proof. destruct it; simpl; lia. Qed.

Lemma item_width_cells {V : Type} (it : item V) :
  item_width it = Z.of_nat (length (item_cells it)).
Proof. destruct it; reflexivity. Qed.

(** X7: [len_in_dim2] is the greatest number of columns of an element
    of the array, a row counting for its length and a single element
    for 1: no element is wider, some element is that wide when the
    array is not empty, and the empty array gives 0. *)
Theorem len_in_dim2_greatest {V : Type} (arr : list (item V)) :
  (forall it, In it arr -> item_width it <= len_in_dim2 arr) /\
  (arr <> [] -> exists it, In it arr /\ item_width it = len_in_dim2 arr) /\
  (arr = [] -> len_in_dim2 arr = 0).
Proof.
  unfold len_in_dim2. destruct (fold_max_width arr 0) as (H0 & Hall & Hex).
  split; [exact Hall | split].
  - intros Hne. destruct Hex as [E | Hex]; [|exact Hex].
    destruct arr as [|x arr]; [congruence|].
    exists x. split; [left; reflexivity|].
    pose proof (Hall x (or_introl eq_refl)). pose proof (item_width_nonneg x). lia.
  - intros ->. reflexivity.
Qed.

Lemma len_in_dim2_greatest_witness :
  (exists it, In it [Row [1; 1]; Cell 2; Row [3; 3; 3]] /\
              item_width it = len_in_dim2 [Row [1; 1]; Cell 2; Row [3; 3; 3]]) /\
  len_in_dim2 (@nil (item Z)) = 0.
Proof.
  split.
  - apply (proj1 (proj2 (len_in_dim2_greatest [Row [1; 1]; Cell 2; Row [3; 3; 3]]))).
    discriminate.
  - apply (proj2 (proj2 (len_in_dim2_greatest (@nil (item Z))))). reflexivity.
Defined.

Lemma len_in_dim2_bound {V : Type} (arr : list (item V)) (it : item V) :
  In it arr -> item_width it <= len_in_dim2 arr.
Proof. intros H. exact (proj1 (proj2 (fold_max_width arr 0)) it H). Qed.

Lemma len_in_dim2_attained {V : Type} (arr : list (item V)) :
  arr <> [] -> exists it, In it arr /\ item_width it = len_in_dim2 arr.
Proof.
  intros Hne. unfold len_in_dim2.
  destruct (fold_max_width arr 0) as (H0 & Hall & [E | Hex]); [|exact Hex].
  destruct arr as [|x arr]; [congruence|].
  exists x. split; [left; reflexivity|].
  pose proof (Hall x (or_introl eq_refl)). pose proof (item_width_nonneg x). lia.
Qed.

(** The row that [ensure_array] makes of an element. *)
Lemma padded_row_length {V : Type} (dv : V) (arr : list (item V)) (it : item V) :
  In it arr ->
  Z.of_nat (length (item_cells it ++
                    repeat dv (Z.to_nat (len_in_dim2 arr - Z.of_nat (length (item_cells it))))))
  = len_in_dim2 arr.
Proof.
  intros Hin. pose proof (len_in_dim2_bound arr it Hin) as Hle.
  rewrite item_width_cells in Hle.
  rewrite length_app, repeat_length. lia.
Qed.

(** X8: when the widest element has a number of columns other than 1,
    [ensure_array] returns as many rows as the array has elements,
    every one a list of exactly [len_in_dim2(arr)] cells: the cells of
    the element (a single element counting as a row of one) followed by
    copies of [str(default_value)]. *)
Theorem ensure_array_pads_rows {V : Type} (dv : V) (arr : list (item V)) :
  len_in_dim2 arr <> 1 ->
  length (ensure_array dv arr) = length arr /\
  forall i it,
    nth_error arr i = Some it ->
    exists pad,
      nth_error (ensure_array dv arr) i = Some (Row (item_cells it ++ pad)) /\
      Z.of_nat (length (item_cells it ++ pad)) = len_in_dim2 arr /\
      Forall (eq dv) pad.
Proof.
  intros Hne. unfold ensure_array.
  destruct (len_in_dim2 arr =? 1) eqn:E; [apply Z.eqb_eq in E; contradiction|].
  split; [apply length_map|].
  intros i it Hi.
  exists (repeat dv (Z.to_nat (len_in_dim2 arr - Z.of_nat (length (item_cells it))))).
  split; [|split].
  - rewrite nth_error_map, Hi. reflexivity.
  - apply padded_row_length. eapply nth_error_In; exact Hi.
  - apply Forall_forall. intros x Hx. symmetry. eapply repeat_spec; exact Hx.
Qed.

Lemma ensure_array_pads_rows_witness :
  length (ensure_array 0 [Row [1; 1]; Cell 2; Row [3; 3; 3]]) =
  length [Row [1; 1]; Cell 2; Row [3; 3; 3]] /\
  forall i it,
    nth_error [Row [1; 1]; Cell 2; Row [3; 3; 3]] i = Some it ->
    exists pad,
      nth_error (ensure_array 0 [Row [1; 1]; Cell 2; Row [3; 3; 3]]) i =
      Some (Row (item_cells it ++ pad)) /\
      Z.of_nat (length (item_cells it ++ pad)) =
      len_in_dim2 [Row [1; 1]; Cell 2; Row [3; 3; 3]] /\
      Forall (eq 0) pad.
Proof.
  apply (ensure_array_pads_rows 0 [Row [1; 1]; Cell 2; Row [3; 3; 3]]).
  vm_compute. discriminate.
Defined.

Lemma len_in_dim2_padded {V : Type} (dv : V) (arr : list (item V)) :
  len_in_dim2
    (map (fun ls =>
            Row (item_cells ls ++
                 repeat dv (Z.to_nat (len_in_dim2 arr - Z.of_nat (length (item_cells ls))))))
         arr) = len_in_dim2 arr.
Proof.
  destruct arr as [|x arr]; [reflexivity|].
  set (arr0 := x :: arr). set (f := fun ls => Row _).
  assert (Hw : forall it, In it (map f arr0) -> item_width it = len_in_dim2 arr0).
  { intros it Hin. apply in_map_iff in Hin. destruct Hin as (ls & <- & Hls).
    unfold f. cbn [item_width]. apply padded_row_length. exact Hls. }
  destruct (len_in_dim2_attained (map f arr0)) as (it & Hin & E); [discriminate|].
  rewrite <- E. apply Hw. exact Hin.
Qed.

(** X9: [ensure_array] applied to its own result changes nothing. *)
Theorem ensure_array_idempotent {V : Type} (dv : V) (arr : list (item V)) :
  ensure_array dv (ensure_array dv arr) = ensure_array dv arr.
Proof.
  unfold ensure_array at 2 3.
  destruct (len_in_dim2 arr =? 1) eqn:E.
  - unfold ensure_array. rewrite E. reflexivity.
  - unfold ensure_array. rewrite len_in_dim2_padded, E.
    rewrite map_map. apply map_ext_in. intros it Hin. cbn [item_cells].
    pose proof (padded_row_length dv arr it Hin) as Hlen.
    rewrite Hlen, Z.sub_diag. cbn [Z.to_nat repeat]. rewrite app_nil_r. reflexivity.
Qed.

(** ** Exchanging rows and columns *)

Lemma heads_columns {V : Type} (a : list (list V)) : forall h,
  heads a = Some h -> Forall2 (fun r x => nth_error r 0 = Some x) a h.
Proof.
  induction a as [|r a IH]; intros h H; cbn [heads] in H.
  - injection H as <-. constructor.
  - destruct r as [|x r]; [discriminate H|].
    destruct (heads a) as [h'|]; [|discriminate H].
    injection H as <-. constructor; [reflexivity | apply IH; reflexivity].
Qed.

Lemma heads_nonempty {V : Type} (a : list (list V)) :
  (forall r, In r a -> r <> []) -> exists h, heads a = Some h.
Proof.
  induction a as [|r a IH]; intros H; cbn [heads].
  - exists []. reflexivity.
  - destruct r as [|x r]; [exfalso; apply (H []); [left|]; reflexivity|].
    destruct (IH (fun r Hr => H r (or_intror Hr))) as (h & ->).
    exists (x :: h). reflexivity.
Qed.

Lemma nth_error_tl {V : Type} (r : list V) (j : nat) :
  nth_error (tl r) j = nth_error r (S j).
Proof. destruct r; [destruct j|]; reflexivity. Qed.

Lemma Forall2_tails {V : Type} (a : list (list V)) (col : list V) (j : nat) :
  Forall2 (fun r x => nth_error r j = Some x) (map (@tl V) a) col ->
  Forall2 (fun r x => nth_error r (S j) = Some x) a col.
Proof.
  revert col. induction a as [|r a IH]; intros col H; inversion H; subst.
  - constructor.
  - constructor; [rewrite <- nth_error_tl; assumption | apply IH; assumption].
Qed.

(** Tuple number [j] of the zip is column [j] of the rows. *)
Lemma zip_loop_column {V : Type} (n : nat) : forall (a : list (list V)) j col,
  nth_error (zip_loop n a) j = Some col ->
  Forall2 (fun r x => nth_error r j = Some x) a col.
Proof.
  induction n as [|n IH]; intros a j col H; cbn [zip_loop] in H.
  - destruct j; discriminate H.
  - destruct (heads a) as [h|] eqn:E; [|destruct j; discriminate H].
    destruct j as [|j]; cbn [nth_error] in H.
    + injection H as <-. apply heads_columns. exact E.
    + apply Forall2_tails. apply IH. exact H.
Qed.

Lemma zip_loop_length_row {V : Type} (n : nat) : forall (a : list (list V)) r,
  In r a -> (length (zip_loop n a) <= length r)%nat.
Proof.
  induction n as [|n IH]; intros a r Hr; cbn [zip_loop]; [simpl; lia|].
  destruct (heads a) as [h|] eqn:E; [|simpl; lia].
  cbn [length].
  specialize (IH (map (@tl V) a) (tl r) (in_map _ _ _ Hr)).
  assert (Hne : r <> []).
  { intros ->. apply heads_columns in E.
    clear IH. induction E as [|r0 x a0 h0 Hx _ IHE]; [destruct Hr|].
    destruct Hr as [-> | Hr]; [discriminate Hx | exact (IHE Hr)]. }
  destruct r; [congruence | cbn [tl length] in *; lia].
Qed.

Lemma zip_loop_length_fuel {V : Type} (n : nat) : forall (a : list (list V)),
  (length (zip_loop n a) <= n)%nat.
Proof.
  induction n as [|n IH]; intros a; cbn [zip_loop]; [simpl; lia|].
  destruct (heads a); [cbn [length]; specialize (IH (map (@tl V) a)); lia | simpl; lia].
Qed.

Lemma zip_loop_length_least {V : Type} (n : nat) : forall (a : list (list V)) k,
  (k <= n)%nat -> (forall r, In r a -> (k <= length r)%nat) ->
  (k <= length (zip_loop n a))%nat.
Proof.
  induction n as [|n IH]; intros a k Hk Hall; [lia|].
  destruct k as [|k]; [lia|]. cbn [zip_loop].
  destruct (heads_nonempty a) as (h & ->).
  { intros r Hr ->. specialize (Hall [] Hr). simpl in Hall. lia. }
  cbn [length]. apply le_n_S. apply IH; [lia|].
  intros r Hr. apply in_map_iff in Hr. destruct Hr as (r0 & <- & Hr0).
  specialize (Hall r0 Hr0). destruct r0; cbn [tl length] in *; lia.
Qed.

Lemma rows_of_rows {V : Type} (iter : V -> option (list V)) (rows : list (list V)) :
  rows_of iter (map Row rows) = Some rows.
Proof.
  induction rows as [|r rows IH]; [reflexivity|].
  cbn [map rows_of]. rewrite IH. reflexivity.
Qed.

Lemma zip_star_shape {V : Type} (rows : list (list V)) :
  (forall r, In r rows -> (length (zip_star rows) <= length r)%nat) /\
  (rows <> [] -> exists r, In r rows /\ length r = length (zip_star rows)) /\
  (forall col, In col (zip_star rows) -> length col = length rows).
Proof.
  split; [|split].
  - intros r Hr. destruct rows as [|r0 rows]; [destruct Hr|].
    apply zip_loop_length_row. exact Hr.
  - intros Hne. destruct rows as [|r0 rows]; [congruence|].
    set (a := r0 :: rows). change (zip_star a) with (zip_loop (length r0) a).
    set (L := length (zip_loop (length r0) a)).
    destruct (Exists_dec (fun r => (length r <= L)%nat) a (fun r => le_dec (length r) L))
      as [Hex | Hno].
    + apply Exists_exists in Hex. destruct Hex as (r & Hr & Hle).
      exists r. split; [exact Hr|].
      pose proof (zip_loop_length_row (length r0) a r Hr). fold L in H. lia.
    + exfalso.
      assert (Hall : forall r, In r a -> (S L <= length r)%nat).
      { intros r Hr. destruct (le_dec (length r) L) as [Hle|]; [|lia].
        exfalso. apply Hno. apply Exists_exists. exists r. split; assumption. }
      pose proof (zip_loop_length_least (length r0) a (S L)
                    (Hall r0 (or_introl eq_refl)) Hall) as H.
      fold L in H. lia.
  - intros col Hcol. apply In_nth_error in Hcol. destruct Hcol as (j & Hj).
    destruct rows as [|r0 rows]; [destruct j; discriminate Hj|].
    apply zip_loop_column in Hj. symmetry. eapply Forall2_length. exact Hj.
Qed.

(** X10: on an array of rows, [swap_rowcol] returns normally; the
    result has as many rows as the shortest row of the array has cells
    (columns beyond it are dropped), every row of the result has one
    cell per row of the array, and the empty array gives the empty
    array. *)
Theorem swap_rowcol_shape {V : Type} (iter : V -> option (list V))
    (rows : list (list V)) (dv : V) :
  exists t,
    swap_rowcol iter (map Row rows) false dv = Some t /\
    (forall r, In r rows -> (length t <= length r)%nat) /\
    (rows <> [] -> exists r, In r rows /\ length r = length t) /\
    (forall col, In col t -> length col = length rows) /\
    (rows = [] -> t = []).
Proof.
  exists (zip_star rows). unfold swap_rowcol. rewrite rows_of_rows.
  destruct (zip_star_shape rows) as (H1 & H2 & H3).
  split; [reflexivity | split; [exact H1 | split; [exact H2 | split; [exact H3|]]]].
  intros ->. reflexivity.
Qed.

Lemma Forall2_nth_error_l {A B : Type} (P : A -> B -> Prop) (a : list A) (b : list B) :
  Forall2 P a b ->
  forall i x, nth_error a i = Some x -> exists y, nth_error b i = Some y /\ P x y.
Proof.
  intros H. induction H as [|x0 y0 a b Hxy _ IH]; intros i x Hi.
  - destruct i; discriminate Hi.
  - destruct i as [|i]; cbn [nth_error] in *.
    + injection Hi as <-. exists y0. split; [reflexivity | exact Hxy].
    + apply IH. exact Hi.
Qed.

Lemma zip_star_entry {V : Type} (rows : list (list V)) (i j : nat) (r col : list V) :
  nth_error rows i = Some r ->
  nth_error (zip_star rows) j = Some col ->
  nth_error col i = nth_error r j.
Proof.
  intros Hi Hj. destruct rows as [|r0 rows]; [destruct i; discriminate Hi|].
  apply zip_loop_column in Hj.
  destruct (Forall2_nth_error_l _ _ _ Hj i r Hi) as (x & Hx & Hr).
  rewrite Hx, Hr. reflexivity.
Qed.

(** X11: [swap_rowcol] transposes: cell [i] of row [j] of the result
    is cell [j] of row [i] of the array. *)
Theorem swap_rowcol_entries {V : Type} (iter : V -> option (list V))
    (rows : list (list V)) (dv : V) :
  exists t,
    swap_rowcol iter (map Row rows) false dv = Some t /\
    forall i j r col,
      nth_error rows i = Some r ->
      nth_error t j = Some col ->
      nth_error col i = nth_error r j.
Proof.
  exists (zip_star rows). unfold swap_rowcol. rewrite rows_of_rows.
  split; [reflexivity|]. intros i j r col. apply zip_star_entry.
Qed.

Lemma zip_star_rectangular_length {V : Type} (rows : list (list V)) (m : nat) :
  rows <> [] -> (forall r, In r rows -> length r = m) ->
  length (zip_star rows) = m.
Proof.
  intros Hne Hall. destruct (zip_star_shape rows) as (_ & Hex & _).
  destruct (Hex Hne) as (r & Hr & <-). apply Hall. exact Hr.
Qed.

Lemma zip_star_involutive {V : Type} (rows : list (list V)) (m : nat) :
  rows <> [] -> (1 <= m)%nat -> (forall r, In r rows -> length r = m) ->
  zip_star (zip_star rows) = rows.
Proof.
  intros Hne Hm Hall.
  pose proof (zip_star_rectangular_length rows m Hne Hall) as Hlen.
  destruct (zip_star_shape rows) as (_ & _ & Hcols).
  assert (Hne' : zip_star rows <> []) by (intros E; rewrite E in Hlen; simpl in Hlen; lia).
  pose proof (zip_star_rectangular_length (zip_star rows) (length rows) Hne' Hcols) as Hlen'.
  destruct (zip_star_shape (zip_star rows)) as (_ & _ & Hcols').
  apply nth_error_ext. intros i.
  destruct (nth_error (zip_star (zip_star rows)) i) as [r'|] eqn:E'.
  - assert (Hi : (i < length rows)%nat)
      by (rewrite <- Hlen'; apply nth_error_Some; congruence).
    destruct (nth_error rows i) as [r|] eqn:E;
      [|apply nth_error_None in E; lia].
    f_equal. apply nth_error_ext. intros j.
    destruct (nth_error (zip_star rows) j) as [col|] eqn:Ej.
    + rewrite (zip_star_entry (zip_star rows) j i col r' Ej E').
      exact (zip_star_entry rows i j r col E Ej).
    + apply nth_error_None in Ej. rewrite Hlen in Ej.
      pose proof (Hcols' r' (nth_error_In _ _ E')) as Hr'.
      pose proof (Hall r (nth_error_In _ _ E)) as Hr.
      rewrite (proj2 (nth_error_None r' j)) by lia.
      rewrite (proj2 (nth_error_None r j)) by lia. reflexivity.
  - apply nth_error_None in E'. symmetry. apply nth_error_None. lia.
Qed.

(** X12: on an array that is not empty and whose rows all have the
    same number [m >= 1] of cells, exchanging rows and columns twice
    gives the array back. *)
Theorem swap_rowcol_twice {V : Type} (iter : V -> option (list V))
    (rows : list (list V)) (m : nat) (dv : V) :
  rows <> [] -> (1 <= m)%nat -> (forall r, In r rows -> length r = m) ->
  exists t,
    swap_rowcol iter (map Row rows) false dv = Some t /\
    swap_rowcol iter (map Row t) false dv = Some rows.
Proof.
  intros Hne Hm Hall. exists (zip_star rows).
  unfold swap_rowcol. rewrite !rows_of_rows.
  split; [reflexivity|]. f_equal. exact (zip_star_involutive rows m Hne Hm Hall).
Qed.

Lemma swap_rowcol_twice_witness :
  exists t,
    swap_rowcol (fun _ => None) (map Row [[1; 2; 3]; [4; 5; 6]]) false 0 = Some t /\
    swap_rowcol (fun _ => None) (map Row t) false 0 = Some [[1; 2; 3]; [4; 5; 6]].
Proof.
  apply (swap_rowcol_twice (fun _ => None) [[1; 2; 3]; [4; 5; 6]] 3%nat 0).
  - discriminate.
  - lia.
  - intros r [<- | [<- | []]]; reflexivity.
Defined.

Lemma rows_of_not_iterable {V : Type} (iter : V -> option (list V))
    (a : list (item V)) (v : V) :
  In (Cell v) a -> iter v = None -> rows_of iter a = None.
Proof.
  induction a as [|it a IH]; intros Hin Hv; [destruct Hin|].
  cbn [rows_of]. destruct Hin as [-> | Hin].
  - rewrite Hv. reflexivity.
  - rewrite (IH Hin Hv). destruct it as [l | w]; [|destruct (iter w)]; reflexivity.
Qed.

(** X13: with [ensure_arr=True] and a widest element of other than 1
    column, [swap_rowcol] returns normally however single elements are
    iterated (they are made rows first) and drops no column: the result
    has [len_in_dim2(a)] rows, each with one cell per element of [a].
    When the widest element has exactly 1 column the array is passed on
    as it is, the call behaving as with [ensure_arr=False]; a single
    element in it that cannot be iterated then makes the call raise. *)
Theorem swap_rowcol_ensured {V : Type} (iter : V -> option (list V))
    (a : list (item V)) (dv : V) :
  (len_in_dim2 a <> 1 ->
   exists t,
     swap_rowcol iter a true dv = Some t /\
     Z.of_nat (length t) = len_in_dim2 a /\
     forall col, In col t -> length col = length a) /\
  (len_in_dim2 a = 1 ->
   swap_rowcol iter a true dv = swap_rowcol iter a false dv /\
   forall v, In (Cell v) a -> iter v = None -> swap_rowcol iter a true dv = None).
Proof.
  split.
  - intros Hne. unfold swap_rowcol, ensure_array.
    destruct (len_in_dim2 a =? 1) eqn:E; [apply Z.eqb_eq in E; contradiction|].
    set (pad := fun ls : item V =>
                  item_cells ls ++
                  repeat dv (Z.to_nat (len_in_dim2 a - Z.of_nat (length (item_cells ls))))).
    rewrite (map_ext _ (fun ls => Row (pad ls)) (fun ls => eq_refl)).
    rewrite <- (map_map pad Row), rows_of_rows.
    exists (zip_star (map pad a)). split; [reflexivity|].
    destruct (zip_star_shape (map pad a)) as (_ & _ & Hcols).
    split; [|intros col Hcol; rewrite (Hcols col Hcol); apply length_map].
    destruct a as [|x a]; [reflexivity|].
    rewrite (zip_star_rectangular_length (map pad (x :: a))
               (Z.to_nat (len_in_dim2 (x :: a)))).
    + pose proof (len_in_dim2_bound (x :: a) x (or_introl eq_refl)).
      pose proof (item_width_nonneg x). lia.
    + discriminate.
    + intros r Hr. apply in_map_iff in Hr. destruct Hr as (ls & <- & Hls).
      pose proof (padded_row_length dv (x :: a) ls Hls) as Hlen. unfold pad. lia.
  - intros E.
    assert (Hsame : swap_rowcol iter a true dv = swap_rowcol iter a false dv).
    { unfold swap_rowcol, ensure_array. rewrite E. reflexivity. }
    split; [exact Hsame|]. intros v Hv Hiter. rewrite Hsame.
    unfold swap_rowcol. rewrite (rows_of_not_iterable iter a v Hv Hiter). reflexivity.
Qed.

Lemma swap_rowcol_ensured_witness :
  (exists t,
     swap_rowcol (fun _ => None) [Row [1; 1]; Cell 2; Row [3; 3; 3]] true 0 = Some t /\
     Z.of_nat (length t) = len_in_dim2 [Row [1; 1]; Cell 2; Row [3; 3; 3]] /\
     forall col, In col t -> length col = length [Row [1; 1]; Cell 2; Row [3; 3; 3]]) /\
  (swap_rowcol (fun _ => None) [Cell 1; Cell 2; Cell 3] true 0 =
   swap_rowcol (fun _ => None) [Cell 1; Cell 2; Cell 3] false 0 /\
   swap_rowcol (fun _ => None) [Cell 1; Cell 2; Cell 3] true 0 = None).
Proof.
  split.
  - apply (proj1 (swap_rowcol_ensured (fun _ => None)
                    [Row [1; 1]; Cell 2; Row [3; 3; 3]] 0)).
    vm_compute. discriminate.
  - destruct (proj2 (swap_rowcol_ensured (fun _ : Z => None)
                       [Cell 1; Cell 2; Cell 3] 0) eq_refl) as [Hsame Hraise].
    split; [exact Hsame|].
    apply (Hraise 1); [left; reflexivity | reflexivity].
Defined.

(** ** Blanking repeated cells *)

Lemma update_app {A : Type} (pre : list A) (x v : A) (r : list A) :
  update (pre ++ x :: r) (length pre) v = pre ++ v :: r.
Proof.
  induction pre as [|y pre IH]; [reflexivity|].
  cbn [app length update]. rewrite IH. reflexivity.
Qed.

Lemma nth_error_middle {A : Type} (pre : list A) (x : A) (r : list A) :
  nth_error (pre ++ x :: r) (length pre) = Some x.
Proof. induction pre as [|y pre IH]; [reflexivity | exact IH]. Qed.

Lemma last_cons_default {A : Type} (l : list A) : forall x d,
  last (x :: l) d = last l x.
Proof.
  induction l as [|y l IH]; intros x d; [reflexivity|].
  change (last (x :: y :: l) d) with (last (y :: l) d).
  rewrite (IH y d), (IH y x). reflexivity.
Qed.

Lemma update_nth_error_eq {A : Type} (l : list A) (v : A) : forall i,
  (i < length l)%nat -> nth_error (update l i v) i = Some v.
Proof.
  induction l as [|x l IH]; intros i Hi; [simpl in Hi; lia|].
  destruct i as [|i]; [reflexivity|]. cbn [update nth_error].
  apply IH. simpl in Hi. lia.
Qed.

Lemma update_nth_error_neq {A : Type} (l : list A) (v : A) : forall i j,
  i <> j -> nth_error (update l i v) j = nth_error l j.
Proof.
  induction l as [|x l IH]; intros i j Hij; [destruct i; reflexivity|].
  destruct i as [|i], j as [|j]; cbn [update nth_error]; try reflexivity;
    [congruence | apply IH; congruence].
Qed.

Lemma update_again {A : Type} (l : list A) (v w : A) : forall i,
  update (update l i v) i w = update l i w.
Proof.
  induction l as [|x l IH]; intros i; [destruct i; reflexivity|].
  destruct i as [|i]; cbn [update]; [reflexivity | rewrite IH; reflexivity].
Qed.

Lemma update_same {A : Type} (l : list A) (v : A) : forall i,
  nth_error l i = Some v -> update l i v = l.
Proof.
  induction l as [|x l IH]; intros i H; [reflexivity|].
  destruct i as [|i]; cbn [update nth_error] in *.
  - injection H as ->. reflexivity.
  - rewrite (IH i H). reflexivity.
Qed.

Lemma update_length {A : Type} (l : list A) (v : A) : forall i,
  length (update l i v) = length l.
Proof.
  induction l as [|x l IH]; intros i; [reflexivity|].
  destruct i; cbn [update length]; [reflexivity | rewrite IH; reflexivity].
Qed.

Lemma nth_update_other {A : Type} (l : list A) (v d : A) (i j : nat) :
  i <> j -> nth j (update l i v) d = nth j l d.
Proof.
  intros Hij.
  pose proof (update_nth_error_neq l v i j Hij) as H.
  destruct (Nat.lt_ge_cases j (length l)) as [Hlt | Hge].
  - rewrite (nth_error_nth' _ d Hlt) in H.
    rewrite (nth_error_nth' (update l i v) d) in H by (rewrite update_length; exact Hlt).
    injection H as H. exact H.
  - rewrite !nth_overflow; [reflexivity | exact Hge | rewrite update_length; exact Hge].
Qed.

Lemma nth_update_here {A : Type} (l : list A) (v d : A) (i : nat) :
  (i < length l)%nat -> nth i (update l i v) d = v.
Proof.
  intros Hi. apply nth_error_nth. apply update_nth_error_eq. exact Hi.
Qed.

Section Hangclear.

Context {V : Type} (eqb : V -> V -> bool) (blank : V).

Lemma clear_row_blanks (m : nat) : forall (pre ppre cur prev : list V),
  length pre = length ppre ->
  (m <= length cur)%nat -> (m <= length prev)%nat ->
  clear_row_values eqb blank (seq (length pre) m) (ppre ++ prev) (pre ++ cur) =
  Some (pre ++ blank_repeats eqb blank m prev cur).
Proof.
  induction m as [|m IH]; intros pre ppre cur prev Hlen Hc Hp.
  - destruct prev, cur; reflexivity.
  - destruct cur as [|x cur]; [simpl in Hc; lia|].
    destruct prev as [|y prev]; [simpl in Hp; lia|].
    cbn [seq clear_row_values blank_repeats].
    rewrite nth_error_middle. rewrite Hlen at 1. rewrite nth_error_middle.
    destruct (eqb x y); [|reflexivity].
    rewrite update_app.
    specialize (IH (pre ++ [blank]) (ppre ++ [y]) cur prev).
    rewrite !length_app in IH. cbn [length] in IH.
    replace (length pre + 1)%nat with (S (length pre)) in IH by lia.
    rewrite <- !app_assoc in IH. cbn [app] in IH.
    apply IH; [lia | simpl in Hc; lia | simpl in Hp; lia].
Qed.

Lemma blank_below_snoc (m : nat) (rs : list (list V)) : forall (p c : list V),
  blank_below eqb blank m p (rs ++ [c]) =
  blank_below eqb blank m p rs ++ [blank_repeats eqb blank m (last rs p) c].
Proof.
  induction rs as [|r rs IH]; intros p c; [reflexivity|].
  cbn [app blank_below]. rewrite IH, last_cons_default. reflexivity.
Qed.

Lemma hang_loop_rows (mz : Z) (rest : list (list V)) : forall (r0 : list V) back,
  (forall r, In r (r0 :: rest) -> (Z.to_nat mz <= length r)%nat) ->
  hang_loop_values eqb blank mz (rev (seq 1 (length rest))) (r0 :: rest ++ back) =
  Some (r0 :: blank_below eqb blank (Z.to_nat mz) r0 rest ++ back).
Proof.
  induction rest as [|cur rs IH] using rev_ind; intros r0 back Hall; [reflexivity|].
  rewrite length_app. cbn [length]. rewrite Nat.add_1_r, seq_S, rev_app_distr.
  cbn [rev app hang_loop_values].
  change (1 + length rs)%nat with (S (length rs)).
  replace (S (length rs) - 1)%nat with (length rs) by lia.
  assert (Hcur : (Z.to_nat mz <= length cur)%nat)
    by (apply Hall; right; apply in_or_app; right; left; reflexivity).
  assert (Hprev : (Z.to_nat mz <= length (last rs r0))%nat).
  { apply Hall. destruct rs as [|r rs' _] using rev_ind; [left; reflexivity|].
    rewrite last_last. right. apply in_or_app. left. apply in_or_app. right.
    left. reflexivity. }
  rewrite <- app_assoc. cbn [app].
  assert (Hnth : nth_error (r0 :: rs ++ cur :: back) (length rs) = Some (last rs r0)).
  { clear. revert r0. induction rs as [|r rs IH]; intros r0; [reflexivity|].
    cbn [length app nth_error]. rewrite IH, last_cons_default. reflexivity. }
  rewrite Hnth. cbn [nth_error]. rewrite nth_error_middle.
  pose proof (clear_row_blanks (Z.to_nat mz) [] [] cur (last rs r0) eq_refl Hcur Hprev) as Hrow.
  cbn [length app] in Hrow. rewrite Hrow.
  cbn [update]. rewrite update_app.
  rewrite IH.
  - rewrite blank_below_snoc, <- app_assoc. reflexivity.
  - intros r Hr. apply Hall. destruct Hr as [<- | Hr]; [left; reflexivity|].
    right. apply in_or_app. left. exact Hr.
Qed.

(** With two different row objects the inner loop on the store does
    what the inner loop on the row values does. *)
Lemma clear_row_distinct (js : list nat) (prev cur : nat) (p : list V) :
  forall (c : list V) (store : list (list V)),
  cur <> prev ->
  nth_error store cur = Some c ->
  nth_error store prev = Some p ->
  clear_row eqb blank js prev cur store =
  option_map (update store cur) (clear_row_values eqb blank js p c).
Proof.
  induction js as [|j js IH]; intros c store Hne Hc Hp; cbn [clear_row clear_row_values].
  - cbn [option_map]. rewrite (update_same store c cur Hc). reflexivity.
  - unfold cell, set_cell. rewrite Hc, Hp.
    destruct (nth_error c j) as [x|]; [|reflexivity].
    destruct (nth_error p j) as [y|]; [|reflexivity].
    destruct (eqb x y).
    + assert (Hlt : (cur < length store)%nat) by (apply nth_error_Some; congruence).
      rewrite (IH (update c j blank) (update store cur (update c j blank)) Hne).
      * destruct (clear_row_values eqb blank js p (update c j blank)) as [c'|];
          [|reflexivity].
        cbn [option_map]. rewrite update_again. reflexivity.
      * apply update_nth_error_eq. exact Hlt.
      * rewrite update_nth_error_neq by exact Hne. exact Hp.
    + cbn [option_map]. rewrite (update_same store c cur Hc). reflexivity.
Qed.

Lemma value_update_distinct (rows : list nat) (c' : list V) (cur : nat) :
  forall (i : nat) (store : list (list V)),
  NoDup rows -> nth_error rows i = Some cur -> (cur < length store)%nat ->
  map (fun ad => nth ad (update store cur c') []) rows =
  update (map (fun ad => nth ad store []) rows) i c'.
Proof.
  induction rows as [|ad rows IH]; intros i store Hnd Hi Hlt;
    [destruct i; discriminate Hi|].
  inversion Hnd as [|? ? Hnotin Hnd']; subst.
  destruct i as [|i]; cbn [nth_error] in Hi; cbn [map update].
  - injection Hi as ->. rewrite nth_update_here by exact Hlt. f_equal.
    apply map_ext_in. intros ad' Hin. apply nth_update_other.
    intros ->. contradiction.
  - rewrite nth_update_other by (intros ->; apply Hnotin; eapply nth_error_In; exact Hi).
    f_equal. apply IH; assumption.
Qed.

Lemma hang_loop_distinct (m : Z) (rows : list nat) (idx : list nat) :
  forall (store : list (list V)),
  NoDup rows ->
  (forall ad, In ad rows -> (ad < length store)%nat) ->
  (forall i, In i idx -> (1 <= i)%nat) ->
  option_map (fun s => map (fun ad => nth ad s []) rows)
    (hang_loop eqb blank m idx rows store) =
  hang_loop_values eqb blank m idx (map (fun ad => nth ad store []) rows).
Proof.
  induction idx as [|i idx IH]; intros store Hnd Hok Hidx; [reflexivity|].
  cbn [hang_loop hang_loop_values]. rewrite !nth_error_map.
  destruct (nth_error rows i) as [cur|] eqn:Ecur; [|reflexivity].
  destruct (nth_error rows (i - 1)) as [prev|] eqn:Eprev; [|reflexivity].
  cbn [option_map].
  assert (Hcur : (cur < length store)%nat) by (apply Hok; eapply nth_error_In; exact Ecur).
  assert (Hprev : (prev < length store)%nat) by (apply Hok; eapply nth_error_In; exact Eprev).
  assert (Hne : cur <> prev).
  { intros ->. pose proof (Hidx i (or_introl eq_refl)) as Hi.
    assert (Hilt : (i < length rows)%nat) by (apply nth_error_Some; congruence).
    pose proof (proj1 (NoDup_nth_error rows) Hnd i (i - 1)%nat Hilt
                  (eq_trans Ecur (eq_sym Eprev))). lia. }
  rewrite (clear_row_distinct _ prev cur (nth prev store []) (nth cur store []) store Hne
             (nth_error_nth' store [] Hcur) (nth_error_nth' store [] Hprev)).
  destruct (clear_row_values eqb blank (seq 0 (Z.to_nat m)) (nth prev store [])
              (nth cur store [])) as [c'|]; [|reflexivity].
  cbn [option_map]. rewrite IH.
  - rewrite (value_update_distinct rows c' cur i store Hnd Ecur Hcur). reflexivity.
  - exact Hnd.
  - intros ad Hin. rewrite update_length. apply Hok. exact Hin.
  - intros k Hk. apply Hidx. right. exact Hk.
Qed.

Lemma blank_repeats_cells (m : nat) : forall (prev cur : list V),
  Forall2 (fun x y => y = x \/ y = blank) cur (blank_repeats eqb blank m prev cur).
Proof.
  assert (Hsame : forall l : list V, Forall2 (fun x y => y = x \/ y = blank) l l)
    by (induction l; constructor; auto).
  induction m as [|m IH]; intros prev cur; [destruct prev, cur; apply Hsame|].
  destruct prev as [|y prev]; [destruct cur; apply Hsame|].
  destruct cur as [|x cur]; [constructor|].
  cbn [blank_repeats]. destruct (eqb x y); [|apply Hsame].
  constructor; [right; reflexivity | apply IH].
Qed.

Lemma Forall2_update {A B : Type} (Q : A -> B -> Prop) (l0 : list A) (l : list B) :
  Forall2 Q l0 l ->
  forall i v, (forall x0, nth_error l0 i = Some x0 -> Q x0 v) ->
              Forall2 Q l0 (update l i v).
Proof.
  intros H. induction H as [|x0 y l0 l Hxy Htl IH]; intros i v Hv; [constructor|].
  destruct i as [|i]; cbn [update].
  - constructor; [apply Hv; reflexivity | assumption].
  - constructor; [exact Hxy | apply IH; intros x1 Hx1; apply Hv; exact Hx1].
Qed.

Lemma blanked_set_cell (s0 s : list (list V)) (ad j : nat) :
  Forall2 (Forall2 (fun x y : V => y = x \/ y = blank)) s0 s -> Forall2 (Forall2 (fun x y : V => y = x \/ y = blank)) s0 (set_cell s ad j blank).
Proof.
  intros H. unfold set_cell. destruct (nth_error s ad) as [row|] eqn:E; [|exact H].
  apply Forall2_update; [exact H|]. intros row0 Hrow0.
  destruct (Forall2_nth_error_l _ _ _ H ad row0 Hrow0) as (row' & Hrow' & Hrel).
  rewrite E in Hrow'. injection Hrow' as <-.
  apply Forall2_update; [exact Hrel | intros; right; reflexivity].
Qed.

Lemma blanked_cell (s0 s : list (list V)) (ad j : nat) (row0 : list V) :
  Forall2 (Forall2 (fun x y : V => y = x \/ y = blank)) s0 s -> nth_error s0 ad = Some row0 -> (j < length row0)%nat ->
  exists x, cell s ad j = Some x.
Proof.
  intros H Hrow0 Hj.
  destruct (Forall2_nth_error_l _ _ _ H ad row0 Hrow0) as (row & Hrow & Hrel).
  unfold cell. rewrite Hrow.
  destruct (nth_error row j) as [x|] eqn:E; [exists x; reflexivity|].
  apply nth_error_None in E. apply Forall2_length in Hrel. lia.
Qed.

Lemma clear_row_blanked (s0 : list (list V)) (prev cur : nat) (p0 c0 : list V)
    (m : nat) : forall (k : nat) (s : list (list V)),
  Forall2 (Forall2 (fun x y : V => y = x \/ y = blank)) s0 s ->
  nth_error s0 cur = Some c0 -> nth_error s0 prev = Some p0 ->
  (k + m <= length c0)%nat -> (k + m <= length p0)%nat ->
  exists s', clear_row eqb blank (seq k m) prev cur s = Some s' /\ Forall2 (Forall2 (fun x y : V => y = x \/ y = blank)) s0 s'.
Proof.
  induction m as [|m IH]; intros k s H Hc Hp Hlc Hlp; cbn [seq clear_row].
  - exists s. split; [reflexivity | exact H].
  - destruct (blanked_cell s0 s cur k c0 H Hc ltac:(lia)) as (x & ->).
    destruct (blanked_cell s0 s prev k p0 H Hp ltac:(lia)) as (y & ->).
    destruct (eqb x y); [|exists s; split; [reflexivity | exact H]].
    apply IH; [apply blanked_set_cell; exact H | assumption | assumption | lia | lia].
Qed.

Lemma hang_loop_blanked (s0 : list (list V)) (m : Z) (rows : list nat)
    (idx : list nat) : forall (s : list (list V)),
  Forall2 (Forall2 (fun x y : V => y = x \/ y = blank)) s0 s ->
  (forall ad, In ad rows ->
     exists r0, nth_error s0 ad = Some r0 /\ (Z.to_nat m <= length r0)%nat) ->
  (forall i, In i idx -> (1 <= i < length rows)%nat) ->
  exists s', hang_loop eqb blank m idx rows s = Some s' /\ Forall2 (Forall2 (fun x y : V => y = x \/ y = blank)) s0 s'.
Proof.
  induction idx as [|i idx IH]; intros s H Hrows Hidx; cbn [hang_loop].
  - exists s. split; [reflexivity | exact H].
  - pose proof (Hidx i (or_introl eq_refl)) as Hi.
    destruct (nth_error rows i) as [cur|] eqn:Ecur;
      [|apply nth_error_None in Ecur; lia].
    destruct (nth_error rows (i - 1)) as [prev|] eqn:Eprev;
      [|apply nth_error_None in Eprev; lia].
    destruct (Hrows cur (nth_error_In _ _ Ecur)) as (c0 & Hc0 & Hlc).
    destruct (Hrows prev (nth_error_In _ _ Eprev)) as (p0 & Hp0 & Hlp).
    destruct (clear_row_blanked s0 prev cur p0 c0 (Z.to_nat m) 0 s H Hc0 Hp0 Hlc Hlp)
      as (s1 & -> & H1).
    apply IH; [exact H1 | exact Hrows | intros k Hk; apply Hidx; right; exact Hk].
Qed.

Lemma blanked_refl (s : list (list V)) : Forall2 (Forall2 (fun x y : V => y = x \/ y = blank)) s s.
Proof.
  induction s as [|row s IH]; constructor; [|exact IH].
  induction row; constructor; auto.
Qed.

Lemma blanked_values (s0 s : list (list V)) (rows : list nat) :
  Forall2 (Forall2 (fun x y : V => y = x \/ y = blank)) s0 s ->
  Forall2 (Forall2 (fun x y : V => y = x \/ y = blank)) (map (fun ad => nth ad s0 []) rows) (map (fun ad => nth ad s []) rows).
Proof.
  intros H. induction rows as [|ad rows IH]; [constructor|].
  cbn [map]. constructor; [|exact IH].
  destruct (nth_error s0 ad) as [r0|] eqn:E0.
  - destruct (Forall2_nth_error_l _ _ _ H ad r0 E0) as (r & Hr & Hrel).
    rewrite (nth_error_nth _ _ [] E0), (nth_error_nth _ _ [] Hr). exact Hrel.
  - apply nth_error_None in E0.
    rewrite (nth_overflow s0) by exact E0.
    rewrite (nth_overflow s) by (apply Forall2_length in H; lia). constructor.
Qed.

End Hangclear.

Lemma widest_len_in_dim2 {V : Type} (rows : list (list V)) (w : Z) :
  widest rows w -> len_in_dim2 (map Row rows) = w.
Proof.
  intros (Hall & Hex & Hnil).
  destruct rows as [|r0 rows]; [rewrite Hnil; reflexivity|].
  destruct (Hex ltac:(discriminate)) as (r & Hr & Hlen).
  pose proof (len_in_dim2_bound (map Row (r0 :: rows)) (Row r) (in_map _ _ _ Hr)) as Hle.
  destruct (len_in_dim2_attained (map Row (r0 :: rows)) ltac:(discriminate))
    as (it & Hit & E).
  apply in_map_iff in Hit. destruct Hit as (r' & <- & Hr').
  specialize (Hall r' Hr'). cbn [item_width] in *. lia.
Qed.

(** X14: take a table of list rows that are all different objects, of
    greatest row length [w], and let the depth in use be [depth] when
    one other than 0 is given and [w - 1] otherwise.  When every row
    has at least that many cells [arr_hangclear] returns normally; the
    first row of the result is as given, and every other row is the row
    given with its leading cells blanked where they equal the cell
    above them IN THE TABLE GIVEN, up to the first cell that differs
    and over at most the depth in use. *)
Theorem arr_hangclear_blanks_repeats {V : Type} (eqb : V -> V -> bool) (blank : V)
    (arr : table V) (depth : option Z) (w : Z) :
  table_ok arr ->
  NoDup (t_rows arr) ->
  widest (table_value arr) w ->
  (forall r, In r (table_value arr) ->
     Z.of_nat (length r) >=
     match depth with
     | Some d => if d =? 0 then w - 1 else d
     | None => w - 1
     end) ->
  exists a,
    arr_hangclear eqb blank arr depth = Some a /\
    table_value a =
    match table_value arr with
    | [] => []
    | r0 :: rest =>
        r0 :: blank_below eqb blank
                (Z.to_nat match depth with
                          | Some d => if d =? 0 then w - 1 else d
                          | None => w - 1
                          end) r0 rest
    end.
Proof.
  intros Hok Hnd Hw Hall.
  assert (Hm : hang_depth (table_value arr) depth =
               match depth with
               | Some d => if d =? 0 then w - 1 else d
               | None => w - 1
               end).
  { unfold hang_depth. rewrite (widest_len_in_dim2 _ w Hw). reflexivity. }
  rewrite <- Hm in *. clear Hm Hw.
  assert (Hall' : forall r, In r (table_value arr) ->
            (Z.to_nat (hang_depth (table_value arr) depth) <= length r)%nat)
    by (intros r Hr; specialize (Hall r Hr); lia).
  clear Hall. rename Hall' into Hall.
  unfold arr_hangclear.
  set (m := hang_depth (table_value arr) depth) in *.
  set (idx := rev (seq 1 (length (t_rows arr) - 1))).
  pose proof (hang_loop_distinct eqb blank m (t_rows arr) idx (t_store arr) Hnd Hok) as Hsim.
  assert (Hidx : forall i, In i idx -> (1 <= i)%nat).
  { intros i Hi. unfold idx in Hi. apply in_rev in Hi. apply in_seq in Hi. lia. }
  specialize (Hsim Hidx). fold (table_value arr) in Hsim.
  assert (Hval : hang_loop_values eqb blank m idx (table_value arr) =
                 Some match table_value arr with
                      | [] => []
                      | r0 :: rest => r0 :: blank_below eqb blank (Z.to_nat m) r0 rest
                      end).
  { unfold idx. replace (length (t_rows arr)) with (length (table_value arr))
      by (unfold table_value; apply length_map).
    destruct (table_value arr) as [|r0 rest]; [reflexivity|].
    replace (length (r0 :: rest) - 1)%nat with (length rest) by (simpl; lia).
    pose proof (hang_loop_rows eqb blank m rest r0 [] Hall) as H.
    rewrite !app_nil_r in H. exact H. }
  rewrite Hval in Hsim.
  destruct (hang_loop eqb blank m idx (t_rows arr) (t_store arr)) as [store|];
    [|discriminate Hsim].
  cbn [option_map] in Hsim. injection Hsim as Hsim.
  eexists. split; [reflexivity | exact Hsim].
Qed.

Lemma arr_hangclear_blanks_repeats_witness :
  exists a,
    arr_hangclear Z.eqb 9 (table_of_rows [[1; 2; 4]; [1; 2; 5]; [1; 3; 5]]) None = Some a /\
    table_value a =
    match table_value (table_of_rows [[1; 2; 4]; [1; 2; 5]; [1; 3; 5]]) with
    | [] => []
    | r0 :: rest =>
        r0 :: blank_below Z.eqb 9
                (Z.to_nat match @None Z with
                          | Some d => if d =? 0 then 3 - 1 else d
                          | None => 3 - 1
                          end) r0 rest
    end.
Proof.
  apply (arr_hangclear_blanks_repeats Z.eqb 9
           (table_of_rows [[1; 2; 4]; [1; 2; 5]; [1; 3; 5]]) None 3).
  - intros ad Hin. cbn in Hin. cbn. lia.
  - cbn. repeat constructor; cbn; intuition lia.
  - split; [|split].
    + intros r [<- | [<- | [<- | []]]]; cbn; lia.
    + intros _. exists [1; 2; 4]. split; [left; reflexivity | reflexivity].
    + discriminate.
  - intros r [<- | [<- | [<- | []]]]; cbn; lia.
Defined.

(** X15: on a table of list rows, shared or not, all of which reach the
    depth in use, [arr_hangclear] returns normally; the result has the
    rows shared as in the table given and the shape of the table given,
    row by row, and every cell of it is the cell given or the blank. *)
Theorem arr_hangclear_keeps_shape {V : Type} (eqb : V -> V -> bool) (blank : V)
    (arr : table V) (depth : option Z) :
  table_ok arr ->
  (forall r, In r (table_value arr) ->
     (Z.to_nat (hang_depth (table_value arr) depth) <= length r)%nat) ->
  exists a,
    arr_hangclear eqb blank arr depth = Some a /\
    t_rows a = t_rows arr /\
    Forall2 (Forall2 (fun x y => y = x \/ y = blank)) (table_value arr) (table_value a).
Proof.
  intros Hok Hall. unfold arr_hangclear.
  destruct (hang_loop_blanked eqb blank (t_store arr)
              (hang_depth (table_value arr) depth) (t_rows arr)
              (rev (seq 1 (length (t_rows arr) - 1))) (t_store arr))
    as (s' & -> & Hs').
  - apply blanked_refl.
  - intros ad Hin. exists (nth ad (t_store arr) []).
    split; [apply nth_error_nth'; apply Hok; exact Hin|].
    apply Hall. unfold table_value. apply in_map_iff. exists ad. split; [reflexivity | exact Hin].
  - intros i Hi. apply in_rev in Hi. apply in_seq in Hi. lia.
  - eexists. split; [reflexivity | split; [reflexivity|]].
    unfold table_value. cbn [t_rows t_store]. apply blanked_values. exact Hs'.
Qed.

Lemma arr_hangclear_keeps_shape_witness :
  exists a,
    arr_hangclear Z.eqb 0 (mkTable [0; 1; 1; 0]%nat [[1; 2; 4]; [1; 2; 5]]) (Some 1) = Some a /\
    t_rows a = t_rows (mkTable [0; 1; 1; 0]%nat [[1; 2; 4]; [1; 2; 5]]) /\
    Forall2 (Forall2 (fun x y => y = x \/ y = 0))
      (table_value (mkTable [0; 1; 1; 0]%nat [[1; 2; 4]; [1; 2; 5]])) (table_value a).
Proof.
  apply (arr_hangclear_keeps_shape Z.eqb 0
           (mkTable [0; 1; 1; 0]%nat [[1; 2; 4]; [1; 2; 5]]) (Some 1)).
  - intros ad Hin. cbn in Hin. cbn. lia.
  - intros r [<- | [<- | [<- | [<- | []]]]]; vm_compute; lia.
Defined.

(** ** The growing list *)

Lemma nth_app_defaults {A : Type} (l : list A) (d : A) (k j : nat) :
  nth j (l ++ repeat d k) d = nth j l d.
Proof.
  destruct (Nat.lt_ge_cases j (length l)) as [Hlt | Hge].
  - apply app_nth1. exact Hlt.
  - rewrite app_nth2 by lia. rewrite (nth_overflow l) by lia. apply nth_repeat.
Qed.

Lemma nth_update {A : Type} (l : list A) (d v : A) : forall i j,
  (i < length l)%nat ->
  nth j (update l i v) d = if (j =? i)%nat then v else nth j l d.
Proof.
  induction l as [|x l IH]; intros i j Hi; [simpl in Hi; lia|].
  destruct i as [|i], j as [|j]; cbn [update nth Nat.eqb]; try reflexivity.
  apply IH. simpl in Hi. lia.
Qed.

Lemma gl_extend_items {V : Type} (g : growing_list V) (index : Z) :
  0 <= index ->
  gl_default (gl_extend g index) = gl_default g /\
  (Z.to_nat index < length (gl_items (gl_extend g index)))%nat /\
  length (gl_items (gl_extend g index)) =
    Nat.max (length (gl_items g)) (Z.to_nat index + 1) /\
  exists k, gl_items (gl_extend g index) = gl_items g ++ repeat (gl_default g) k.
Proof.
  intros Hi. unfold gl_extend.
  destruct (Z.of_nat (length (gl_items g)) <=? index) eqn:E.
  - apply Z.leb_le in E. cbn [gl_items gl_default].
    rewrite length_app, repeat_length.
    split; [reflexivity | split; [lia | split; [lia|]]].
    eexists. reflexivity.
  - apply Z.leb_gt in E.
    split; [reflexivity | split; [lia | split; [lia|]]].
    exists 0%nat. cbn [repeat]. rewrite app_nil_r. reflexivity.
Qed.

Lemma list_index_nonneg (n : nat) (index : Z) :
  0 <= index -> (Z.to_nat index < n)%nat ->
  list_index n index = Some (Z.to_nat index).
Proof.
  intros Hi Hn. unfold list_index.
  destruct (index <? 0) eqn:E; [apply Z.ltb_lt in E; lia|].
  replace ((0 <=? index) && (index <? Z.of_nat n)) with true; [reflexivity|].
  symmetry. apply andb_true_iff. split; [apply Z.leb_le | apply Z.ltb_lt]; lia.
Qed.

(** What a read at an index [>= 0] returns, and the object it leaves. *)
Lemma gl_getitem_nonneg {V : Type} (g : growing_list V) (index : Z) :
  0 <= index ->
  gl_getitem g index =
  (Some (nth (Z.to_nat index) (gl_items g) (gl_default g)), gl_extend g index).
Proof.
  intros Hi. unfold gl_getitem.
  destruct (gl_extend_items g index Hi) as (Hd & Hlt & _ & k & Hk).
  rewrite (list_index_nonneg _ index Hi Hlt). f_equal.
  rewrite (nth_error_nth' _ (gl_default g) Hlt), Hk, nth_app_defaults. reflexivity.
Qed.

(** X16: reading a growing list at an index [>= 0] never raises.  It
    returns the item at the index when there is one and the default
    otherwise, and in the latter case the read itself lengthens the
    list: afterwards the list is the old one followed by defaults, of
    length [max(len, index + 1)]. *)
Theorem growing_list_read_extends {V : Type} (g : growing_list V) (index : Z) :
  0 <= index ->
  exists g',
    gl_getitem g index =
      (Some (nth (Z.to_nat index) (gl_items g) (gl_default g)), g') /\
    gl_default g' = gl_default g /\
    length (gl_items g') = Nat.max (length (gl_items g)) (Z.to_nat index + 1) /\
    exists k, gl_items g' = gl_items g ++ repeat (gl_default g) k.
Proof.
  intros Hi. exists (gl_extend g index).
  destruct (gl_extend_items g index Hi) as (Hd & _ & Hlen & Hk).
  split; [apply gl_getitem_nonneg; exact Hi | split; [exact Hd | split; [exact Hlen | exact Hk]]].
Qed.

Lemma growing_list_read_extends_witness :
  exists g',
    gl_getitem (mkGrowingList [5; 6] 0) 4 =
      (Some (nth (Z.to_nat 4) (gl_items (mkGrowingList [5; 6] 0))
               (gl_default (mkGrowingList [5; 6] 0))), g') /\
    gl_default g' = gl_default (mkGrowingList [5; 6] 0) /\
    length (gl_items g') =
      Nat.max (length (gl_items (mkGrowingList [5; 6] 0))) (Z.to_nat 4 + 1) /\
    exists k, gl_items g' =
              gl_items (mkGrowingList [5; 6] 0) ++
              repeat (gl_default (mkGrowingList [5; 6] 0)) k.
Proof. apply (growing_list_read_extends (mkGrowingList [5; 6] 0) 4). lia. Defined.

(** X17: an assignment at an index [>= 0] never raises, and a read
    after it at an index [j >= 0] returns the value assigned when
    [j] is the index, and otherwise what the read would have returned
    before the assignment (the item, or the default past the end). *)
Theorem growing_list_write_read {V : Type} (g : growing_list V) (i j : Z) (value : V) :
  0 <= i -> 0 <= j ->
  fst (gl_setitem g i value) = Some tt /\
  fst (gl_getitem (snd (gl_setitem g i value)) j) =
    Some (if j =? i then value else nth (Z.to_nat j) (gl_items g) (gl_default g)).
Proof.
  intros Hi Hj. unfold gl_setitem.
  destruct (gl_extend_items g i Hi) as (Hd & Hlt & _ & k & Hk).
  rewrite (list_index_nonneg _ i Hi Hlt). cbn [fst snd].
  split; [reflexivity|].
  rewrite (gl_getitem_nonneg _ j Hj). cbn [fst gl_items gl_default]. f_equal.
  rewrite Hd, (nth_update _ _ _ _ _ Hlt), Hk, nth_app_defaults.
  destruct (j =? i) eqn:E.
  - apply Z.eqb_eq in E. subst j. rewrite Nat.eqb_refl. reflexivity.
  - apply Z.eqb_neq in E.
    destruct (Z.to_nat j =? Z.to_nat i)%nat eqn:E'; [|reflexivity].
    apply Nat.eqb_eq in E'. lia.
Qed.

Lemma growing_list_write_read_witness :
  fst (gl_setitem (gl_init 0) 3 7) = Some tt /\
  fst (gl_getitem (snd (gl_setitem (gl_init 0) 3 7)) 3) =
    Some (if 3 =? 3 then 7 else nth (Z.to_nat 3) (gl_items (gl_init 0)) (gl_default (gl_init 0))).
Proof. apply (growing_list_write_read (gl_init 0) 3 3 7); lia. Defined.

(** X18: a negative index never lengthens the list.  Within
    [-len .. -1] a read returns the item counted from the end; below
    [-len] (always, when the list is empty) both the read and the
    assignment raise [IndexError] and leave the object as it was. *)
Theorem growing_list_negative_index {V : Type} (g : growing_list V) (index : Z) :
  index < 0 ->
  (- Z.of_nat (length (gl_items g)) <= index ->
   gl_getitem g index =
   (nth_error (gl_items g) (Z.to_nat (index + Z.of_nat (length (gl_items g)))), g)) /\
  (index < - Z.of_nat (length (gl_items g)) ->
   gl_getitem g index = (None, g) /\
   forall value, gl_setitem g index value = (None, g)).
Proof.
  intros Hi.
  assert (Hext : gl_extend g index = g).
  { unfold gl_extend.
    destruct (Z.of_nat (length (gl_items g)) <=? index) eqn:E;
      [apply Z.leb_le in E; lia | reflexivity]. }
  unfold gl_getitem, gl_setitem. rewrite Hext. unfold list_index.
  destruct (index <? 0) eqn:E; [|apply Z.ltb_ge in E; lia].
  split; intros Hlow.
  - replace ((0 <=? index + Z.of_nat (length (gl_items g))) &&
             (index + Z.of_nat (length (gl_items g)) <? Z.of_nat (length (gl_items g))))
      with true; [reflexivity|].
    symmetry. apply andb_true_iff. split; [apply Z.leb_le | apply Z.ltb_lt]; lia.
  - replace (0 <=? index + Z.of_nat (length (gl_items g))) with false
      by (symmetry; apply Z.leb_gt; lia).
    cbn [andb]. split; [reflexivity | intros value; reflexivity].
Qed.

Lemma growing_list_negative_index_witness :
  gl_getitem (mkGrowingList [5; 6] 0) (-1) =
    (nth_error (gl_items (mkGrowingList [5; 6] 0))
       (Z.to_nat (-1 + Z.of_nat (length (gl_items (mkGrowingList [5; 6] 0))))),
     mkGrowingList [5; 6] 0) /\
  (gl_getitem (gl_init 0) (-1) = (None, gl_init 0) /\
   forall value, gl_setitem (gl_init 0) (-1) value = (None, gl_init 0)).
Proof.
  split.
  - apply (proj1 (growing_list_negative_index (mkGrowingList [5; 6] 0) (-1) ltac:(lia))).
    simpl. lia.
  - apply (proj2 (growing_list_negative_index (gl_init 0) (-1) ltac:(lia))).
    simpl. lia.
Defined.

(** ** [shorten] *)

Example doc_shorten :
  shorten (py "aaa") 10 = py "aaa" /\
  shorten (py "hell world! 0123456789 0123456789") 11 = py "hell world!" /\
  shorten (py "Hello  world!") 12 = py "Hello world!" /\
  shorten (py "Hello  world!") 11 = py "Hello world" /\
  shorten (py "0123456789 0123456789") 11 = py "0123456789 ".
Proof. repeat split. Qed.

Lemma collapse_spaces_single_spaced (s : str) : forall b,
  single_spaced b (collapse_spaces b s).
Proof.
  induction s as [|ch s IH]; intros b; [exact I|].
  cbn [collapse_spaces]. destruct (isspace ch) eqn:E.
  - destruct b; [apply IH|].
    cbn [single_spaced]. change (isspace " ") with true. cbv iota.
    split; [reflexivity | split; [reflexivity | apply IH]].
  - cbn [single_spaced]. rewrite E. apply IH.
Qed.

Lemma collapse_spaces_fixed (s : str) : forall b,
  single_spaced b s -> collapse_spaces b s = s.
Proof.
  induction s as [|ch s IH]; intros b H; [reflexivity|].
  cbn [single_spaced collapse_spaces] in *. destruct (isspace ch).
  - destruct H as (-> & -> & H). f_equal. apply IH. exact H.
  - f_equal. apply IH. exact H.
Qed.

Lemma single_spaced_firstn (n : nat) : forall (s : str) b,
  single_spaced b s -> single_spaced b (firstn n s).
Proof.
  induction n as [|n IH]; intros s b H; [exact I|].
  destruct s as [|ch s]; [exact I|].
  cbn [firstn single_spaced] in *. destruct (isspace ch).
  - destruct H as (Hc & Hb & H). split; [exact Hc | split; [exact Hb | apply IH; exact H]].
  - apply IH. exact H.
Qed.

Lemma collapse_spaces_length (s : str) : forall b,
  (length (collapse_spaces b s) <= length s)%nat.
Proof.
  induction s as [|ch s IH]; intros b; [simpl; lia|].
  pose proof (IH true). pose proof (IH false).
  cbn [collapse_spaces]. destruct (isspace ch); [destruct b|]; cbn [length]; lia.
Qed.

(** For a width that is not negative the result is the collapsed text
    cut to its first [width] characters. *)
Lemma shorten_firstn (s : str) (width : Z) :
  0 <= width ->
  shorten s width = firstn (Z.to_nat width) (collapse_spaces false s).
Proof.
  intros Hw. unfold shorten, py_prefix, len.
  replace (width <? 0) with false by (symmetry; apply Z.ltb_ge; exact Hw).
  destruct (width <? Z.of_nat (length (collapse_spaces false s))) eqn:E;
    [reflexivity|].
  apply Z.ltb_ge in E. symmetry. apply firstn_all2. lia.
Qed.

(** X19: for [width >= 0] the result of [shorten] has at most [width]
    characters and no more than the text given; it contains no
    whitespace other than single spaces, never two in a row. *)
Theorem shorten_bounded (s : str) (width : Z) :
  0 <= width ->
  len (shorten s width) <= width /\
  len (shorten s width) <= len s /\
  single_spaced false (shorten s width).
Proof.
  intros Hw. rewrite (shorten_firstn s width Hw). unfold len.
  rewrite length_firstn.
  pose proof (collapse_spaces_length s false).
  split; [lia | split; [lia|]].
  apply single_spaced_firstn. apply collapse_spaces_single_spaced.
Qed.

Lemma shorten_bounded_witness :
  len (shorten (py "Hello  world!") 11) <= 11 /\
  len (shorten (py "Hello  world!") 11) <= len (py "Hello  world!") /\
  single_spaced false (shorten (py "Hello  world!") 11).
Proof. apply (shorten_bounded (py "Hello  world!") 11). lia. Defined.

(** X20: for [width >= 0], shortening a shortened text again to the
    same width changes nothing. *)
Theorem shorten_idempotent (s : str) (width : Z) :
  0 <= width ->
  shorten (shorten s width) width = shorten s width.
Proof.
  intros Hw. rewrite !(shorten_firstn _ width Hw).
  rewrite collapse_spaces_fixed.
  - rewrite firstn_firstn, Nat.min_id. reflexivity.
  - apply single_spaced_firstn. apply collapse_spaces_single_spaced.
Qed.

Lemma shorten_idempotent_witness :
  shorten (shorten (py "a  b   c d") 5) 5 = shorten (py "a  b   c d") 5.
Proof. apply (shorten_idempotent (py "a  b   c d") 5). lia. Defined.

(** ** More on [strfind] *)

(** X21: forward search for a single needle with [overlap=True].  Let
    the cursor be the [start] given, or 0 when none is given.  For a
    cursor that is not negative and for [times >= 0] the result is
    occurrence number [times] (from 0) among ALL the occurrences at or
    after the cursor, overlapping ones included: the cursor moves one
    past the start of each occurrence counted.  The result is [-1]
    exactly when there are not that many occurrences. *)
Theorem strfind_forward_overlapping
    (fullstr objstr : str) (start : option Z) (times : Z) :
  0 <= times ->
  0 <= match start with Some s => s | None => 0 end ->
  exists r,
    strfind fullstr (Str objstr) start times true = Some r /\
    ((r = -1 /\
      forall p, ~ nth_match fullstr objstr 1
                    match start with Some s => s | None => 0 end
                    (Z.to_nat times) p) \/
     nth_match fullstr objstr 1
       match start with Some s => s | None => 0 end
       (Z.to_nat times) r).
Proof.
  intros Ht Hc. exists (strfind_str fullstr objstr start times true).
  split; [reflexivity|].
  rewrite <- (default_start_forward fullstr start times Ht) in *.
  exact (strfind_str_forward fullstr objstr start times true Ht Hc).
Qed.

Lemma strfind_forward_overlapping_witness :
  exists r,
    strfind (py "aaaaa") (Str (py "aa")) (Some 1) 2 true = Some r /\
    ((r = -1 /\
      forall p, ~ nth_match (py "aaaaa") (py "aa") 1 1 (Z.to_nat 2) p) \/
     nth_match (py "aaaaa") (py "aa") 1 1 (Z.to_nat 2) r).
Proof.
  apply (strfind_forward_overlapping (py "aaaaa") (py "aa") (Some 1) 2); lia.
Defined.

Lemma default_start_backward (h : str) (start : option Z) (times : Z) :
  times < 0 ->
  default_start h start times =
  match start with Some s => s | None => len h - 1 end.
Proof.
  intros Ht. unfold default_start. destruct start as [s|]; [reflexivity|].
  destruct (times <? 0) eqn:E; [reflexivity | apply Z.ltb_ge in E; lia].
Qed.

(** X22: a single backward step ([times = -1], either [overlap]).
    Let the cursor be the [start] given, or [len(fullstr) - 1] when
    none is given.  For a cursor [>= -1] the call returns the START of
    the last occurrence that ends at or before the cursor index
    (inclusive), and [-1] exactly when no occurrence ends there; with no
    [start] given that is the last occurrence in the haystack. *)
Theorem strfind_backward_once
    (fullstr objstr : str) (start : option Z) (overlap : bool) :
  -1 <= match start with Some s => s | None => len fullstr - 1 end ->
  exists r,
    strfind fullstr (Str objstr) start (-1) overlap = Some r /\
    ((r = -1 /\
      forall q, occurs_at fullstr objstr q ->
                ~ q + len objstr <=
                  match start with Some s => s | None => len fullstr - 1 end + 1) \/
     last_within fullstr objstr
       (match start with Some s => s | None => len fullstr - 1 end + 1) r).
Proof.
  intros Hc. exists (strfind_str fullstr objstr start (-1) overlap).
  split; [reflexivity|].
  rewrite <- (default_start_backward fullstr start (-1) ltac:(lia)) in *.
  exact (strfind_str_backward_once fullstr objstr
           (default_start fullstr start (-1)) overlap Hc).
Qed.

Lemma strfind_backward_once_witness :
  (exists r,
     strfind (py "aabbaabb") (Str (py "aa")) None (-1) false = Some r /\
     ((r = -1 /\
       forall q, occurs_at (py "aabbaabb") (py "aa") q ->
                 ~ q + len (py "aa") <= len (py "aabbaabb") - 1 + 1) \/
      last_within (py "aabbaabb") (py "aa") (len (py "aabbaabb") - 1 + 1) r)) /\
  (exists r,
     strfind (py "aabbaabb") (Str (py "aa")) (Some 3) (-1) true = Some r /\
     ((r = -1 /\
       forall q, occurs_at (py "aabbaabb") (py "aa") q ->
                 ~ q + len (py "aa") <= 3 + 1) \/
      last_within (py "aabbaabb") (py "aa") (3 + 1) r)).
Proof.
  split.
  - apply (strfind_backward_once (py "aabbaabb") (py "aa") None false).
    vm_compute. discriminate.
  - apply (strfind_backward_once (py "aabbaabb") (py "aa") (Some 3) true).
    lia.
Defined.

Lemma strfind_str_first (h x : str) (c : Z) (ov : bool) :
  strfind_str h x (Some c) 0 ov = find h x c.
Proof.
  unfold strfind_str, default_start. change (0 <=? 0) with true.
  change (Z.to_nat (0 + 1)) with 1%nat. cbv iota.
  rewrite forward_loop_S. cbn [forward_loop].
  replace (c - (if ov then 1 else len x) + (if ov then 1 else len x)) with c by lia.
  destruct (find h x c =? -1) eqn:E; [apply Z.eqb_eq in E; congruence | reflexivity].
Qed.

Lemma first_any_unique (h : str) (l : list str) (c p q : Z) :
  first_any_from h l c p -> first_any_from h l c q -> p = q.
Proof.
  intros (Hp & Hop & Hnp) (Hq & Hoq & Hnq).
  destruct (Z.lt_trichotomy p q) as [Hlt | [Heq | Hgt]]; [|exact Heq|].
  - exfalso. apply (Hnq p); [lia | exact Hop].
  - exfalso. apply (Hnp q); [lia | exact Hoq].
Qed.

(** One round over the collection from a cursor [c >= 0] keeps the
    first position at or after [c] where any needle occurs. *)
Lemma forward_round_first_any (h : str) (l : list str) (ov : bool) (c r : Z) :
  0 <= c ->
  forward_round h l ov c r ->
  (r = -1 /\ forall q, c <= q -> ~ any_occurs_at h l q) \/
  first_any_from h l c r.
Proof.
  intros Hc Hr. unfold forward_round in Hr.
  rewrite (map_ext _ (fun x => find h x c) (fun x => strfind_str_first h x c ov)) in Hr.
  destruct Hr as [[-> Hneg] | (H0 & Hin & Hmin)].
  - left. split; [reflexivity|]. intros q Hq (x & Hx & Hocc).
    specialize (Hneg (find h x c) (in_map _ _ _ Hx)).
    destruct (find_first h x c Hc) as [[_ Hno] | (Hle & _)]; [|lia].
    exact (Hno q Hq Hocc).
  - right. apply in_map_iff in Hin. destruct Hin as (x0 & E0 & Hx0).
    destruct (find_first h x0 c Hc) as [[E _] | Hf]; [lia|].
    rewrite E0 in Hf. destruct Hf as (Hle & Hocc & _).
    split; [exact Hle | split; [exists x0; split; assumption|]].
    intros q Hq (x & Hx & Hoccx).
    destruct (find_first h x c Hc) as [[_ Hno] | (Hlex & _ & Hnox)].
    + exact (Hno q ltac:(lia) Hoccx).
    + specialize (Hmin (find h x c) (in_map _ _ _ Hx) ltac:(lia)).
      apply (Hnox q); [lia | exact Hoccx].
Qed.

Lemma rounds_nth_any (h : str) (l : list str) (ov : bool) (n : nat) : forall c r,
  0 <= c ->
  rounds (forward_round h l ov) (fun q => q + 1) (S n) c r ->
  (r = -1 /\ forall p, ~ nth_any h l c n p) \/ nth_any h l c n r.
Proof.
  induction n as [|n IH]; intros c r Hc H;
    inversion H as [n' c' Hs | c' r' Hs Hr | n' c' q r' Hs Hq Hrest]; subst.
  - left. split; [reflexivity|].
    destruct (forward_round_first_any h l ov c (-1) Hc Hs) as [[_ Hno] | (Hle & _)]; [|lia].
    intros p Hp. inversion Hp as [c' p' (Hcp & Ho & _)|]; subst. exact (Hno p Hcp Ho).
  - right. constructor.
    destruct (forward_round_first_any h l ov c r Hc Hs) as [[E _] | Hf];
      [contradiction | exact Hf].
  - left. split; [reflexivity|].
    destruct (forward_round_first_any h l ov c (-1) Hc Hs) as [[_ Hno] | (Hle & _)]; [|lia].
    intros p Hp. inversion Hp as [|c' q k p' (Hcq & Ho & _)]; subst. exact (Hno q Hcq Ho).
  - destruct (forward_round_first_any h l ov c q Hc Hs) as [[E _] | Hf]; [contradiction|].
    assert (Hq1 : 0 <= q + 1) by (destruct Hf as (? & _); lia).
    destruct (IH (q + 1) r Hq1 Hrest) as [[-> Hno] | Hn].
    + left. split; [reflexivity|].
      intros p Hp. inversion Hp as [|c' q' k p' Hf' Hrest']; subst.
      rewrite (first_any_unique _ _ _ _ _ Hf' Hf) in Hrest'. exact (Hno p Hrest').
    + right. econstructor; [exact Hf | exact Hn].
Qed.

(** X23: forward search over a collection of needles.  From a start
    that is not negative and for [times >= 0] the call returns
    position number [times] (from 0), in increasing order, among the
    positions at or after the start at which SOME needle occurs, each
    position counted once however many needles occur there; it returns
    [-1] exactly when there are not that many positions. *)
Theorem strfind_collection_forward
    (fullstr : str) (objstr : list str) (start : option Z) (times : Z)
    (overlap : bool) :
  0 <= times ->
  0 <= default_start fullstr start times ->
  exists r,
    strfind fullstr (Seq objstr) start times overlap = Some r /\
    ((r = -1 /\
      forall p, ~ nth_any fullstr objstr
                    (default_start fullstr start times) (Z.to_nat times) p) \/
     nth_any fullstr objstr (default_start fullstr start times) (Z.to_nat times) r).
Proof.
  intros Ht Hc.
  destruct (proj1 strfind_seq_rounds fullstr objstr start times overlap Ht)
    as (r & Hr & Hrounds).
  exists r. split; [exact Hr|].
  rewrite (to_nat_succ times Ht) in Hrounds.
  exact (rounds_nth_any fullstr objstr overlap _ _ _ Hc Hrounds).
Qed.

Lemma strfind_collection_forward_witness :
  exists r,
    strfind (py "aabbaabb") (Seq [py "aa"; py "bb"]) None 2 false = Some r /\
    ((r = -1 /\
      forall p, ~ nth_any (py "aabbaabb") [py "aa"; py "bb"]
                    (default_start (py "aabbaabb") None 2) (Z.to_nat 2) p) \/
     nth_any (py "aabbaabb") [py "aa"; py "bb"]
       (default_start (py "aabbaabb") None 2) (Z.to_nat 2) r).
Proof.
  apply (strfind_collection_forward (py "aabbaabb") [py "aa"; py "bb"] None 2 false);
    [lia | cbv [default_start]; simpl; lia].
Defined.

Lemma forward_loop_snoc (h sub : str) (adv : Z) (n : nat) : forall p,
  forward_loop h sub adv (S (S n)) p =
  if forward_loop h sub adv (S n) p =? -1 then -1
  else forward_loop h sub adv 1 (forward_loop h sub adv (S n) p).
Proof.
  induction n as [|n IH]; intros p.
  - rewrite (forward_loop_S h sub adv 1 p), (forward_loop_S h sub adv 0 p).
    cbn [forward_loop].
    destruct (find h sub (p + adv) =? -1) eqn:E; [reflexivity|].
    rewrite E. reflexivity.
  - rewrite (forward_loop_S h sub adv (S (S n)) p), (forward_loop_S h sub adv (S n) p).
    destruct (find h sub (p + adv) =? -1); [reflexivity | apply IH].
Qed.

(** X24: successive results of a forward search for one needle (any
    start, either [overlap]).  Once the search for occurrence number
    [times] fails, so does the search for number [times + 1]; and when
    number [times + 1] is found at [r'], number [times] was found at
    some [r] and [r'] is the first occurrence at or after [r + 1]
    ([overlap=True]) or [r + len(needle)] ([overlap=False], so that the
    two occurrences do not overlap). *)
Theorem strfind_next_occurrence
    (fullstr objstr : str) (start : option Z) (times : Z) (overlap : bool)
    (r r' : Z) :
  0 <= times ->
  strfind fullstr (Str objstr) start times overlap = Some r ->
  strfind fullstr (Str objstr) start (times + 1) overlap = Some r' ->
  (r = -1 -> r' = -1) /\
  (r' <> -1 ->
   r <> -1 /\
   first_from fullstr objstr (r + if overlap then 1 else len objstr) r').
Proof.
  intros Ht Hr Hr'. unfold strfind in *.
  injection Hr as Hr. injection Hr' as Hr'.
  pose proof (strfind_str_range fullstr objstr start times overlap) as Hrange.
  rewrite Hr in Hrange.
  unfold strfind_str in Hr, Hr'.
  rewrite (default_start_forward fullstr start (times + 1) ltac:(lia)) in Hr'.
  rewrite (default_start_forward fullstr start times Ht) in Hr.
  destruct (0 <=? times) eqn:E; [|apply Z.leb_gt in E; lia].
  destruct (0 <=? times + 1) eqn:E'; [|apply Z.leb_gt in E'; lia].
  rewrite (to_nat_succ (times + 1) ltac:(lia)), (to_nat_succ times Ht) in Hr'.
  rewrite (to_nat_succ times Ht) in Hr.
  rewrite forward_loop_snoc, Hr in Hr'.
  set (adv := if overlap then 1 else len objstr) in *.
  assert (Hadv : 0 <= adv) by (unfold adv; destruct overlap; [lia | apply len_nonneg]).
  destruct (r =? -1) eqn:Er.
  - apply Z.eqb_eq in Er. subst r r'.
    split; [reflexivity | intros H; contradiction].
  - apply Z.eqb_neq in Er. split; [intros H; contradiction|].
    intros Hr'ne. split; [exact Er|].
    destruct Hrange as [H | (H0 & _)]; [contradiction|].
    rewrite forward_loop_S in Hr'. cbn [forward_loop] in Hr'.
    destruct (find_first fullstr objstr (r + adv) ltac:(lia)) as [[Ef _] | Hf].
    + rewrite Ef in Hr'. cbn in Hr'. congruence.
    + destruct (find fullstr objstr (r + adv) =? -1) eqn:Ef; [congruence|].
      rewrite <- Hr'. exact Hf.
Qed.

Lemma strfind_next_occurrence_witness :
  (2 = -1 -> 6 = -1) /\
  (6 <> -1 ->
   2 <> -1 /\
   first_from (py "aabbaabb") (py "bb") (2 + if false then 1 else len (py "bb")) 6).
Proof.
  apply (strfind_next_occurrence (py "aabbaabb") (py "bb") None 0 false 2 6);
    [lia | reflexivity | reflexivity].
Defined.
